(** * tele-dl: media extraction and fault-tolerant download

    A shallow embedding of the two core packages of tele-dl,
    [internal/parser] (the content-tree walker and media extractor) and
    [internal/downloader] (retry loop, single-attempt transfer, worker pool
    and result aggregation), together with the properties the design
    document states about them.

    Conventions.
    - Go strings are byte strings: [string] (a list of [ascii]).
    - A Go [int] that only counts elements of a slice is a [nat]; [int64]
      byte counts are [Z], with the wrap-around of [+=] written out.
    - A run-time panic is [None] in the option monad; [Some] is a normal
      return.
    - Go maps are [gmap]s. *)

From Stdlib Require Import ZArith Lia Ascii String.
From stdpp Require Import base option list gmap strings pretty numbers.

Set Warnings "-register-all,-clear-no-such-hyp".
Local Open Scope string_scope.
Local Open Scope list_scope.

(** ** The part of the Go standard library the two packages call *)

Module GoStrings.

(** [strings.HasPrefix]. *)
Definition HasPrefix (s prefix : string) : bool := String.prefix prefix s.

(** [strings.Contains]: [substr] occurs at some byte offset of [s]. *)
Fixpoint Contains (s substr : string) : bool :=
  String.prefix substr s ||
  match s with
  | EmptyString => false
  | String _ rest => Contains rest substr
  end.

(** [strings.Split(s, sep)] for a one-byte separator, the only way the
    parser calls it.  The result is never empty. *)
Fixpoint Split (s : string) (sep : ascii) : list string :=
  match s with
  | EmptyString => [EmptyString]
  | String c rest =>
      if Ascii.eqb c sep then EmptyString :: Split rest sep
      else match Split rest sep with
           | [] => [String c EmptyString]
           | hd :: tl => String c hd :: tl
           end
  end.

Definition isAnyOf (chars : string) (c : ascii) : bool :=
  existsb (Ascii.eqb c) (list_ascii_of_string chars).

(** [strings.IndexAny] for ASCII [chars]; Go's [-1] is [None]. *)
Fixpoint IndexAny (s chars : string) : option nat :=
  match s with
  | EmptyString => None
  | String c rest =>
      if isAnyOf chars c then Some 0 else S <$> IndexAny rest chars
  end.

(** The slice expression [s[:n]] for [n <= len(s)]. *)
Definition sliceTo (s : string) (n : nat) : string := String.substring 0 n s.

(** The slice expression [s[i:]] for [i <= len(s)]. *)
Definition sliceFrom (s : string) (i : nat) : string :=
  String.substring i (String.length s - i) s.

(** [filepath.Ext]: scan backwards from the last byte, stop at a path
    separator, return the suffix that starts at the first dot met.
    [i] is one more than the index examined, as in
    [for i := len(path)-1; i >= 0 && path[i] != '/'; i--]. *)
Fixpoint extLoop (path : string) (i : nat) : string :=
  match i with
  | 0 => EmptyString
  | S j =>
      match String.get j path with
      | Some c =>
          if Ascii.eqb c "/" then EmptyString
          else if Ascii.eqb c "." then sliceFrom path j
          else extLoop path j
      | None => EmptyString
      end
  end.

Definition Ext (path : string) : string := extLoop path (String.length path).

(** [strings.Index]: the first byte offset at which [substr] occurs; Go's
    [-1] is [None]. *)
Fixpoint Index (s substr : string) : option nat :=
  if String.prefix substr s then Some 0
  else match s with
       | EmptyString => None
       | String _ rest => S <$> Index rest substr
       end.

(** [strings.TrimPrefix]. *)
Definition TrimPrefix (s prefix : string) : string :=
  if HasPrefix s prefix then sliceFrom s (String.length prefix) else s.

(** The value of a decimal digit: [ch -= '0'; if ch > 9 { error }]. *)
Definition digitValue (c : ascii) : option Z :=
  let n := nat_of_ascii c in
  if (48 <=? n)%nat && (n <=? 57)%nat then Some (Z.of_nat (n - 48)) else None.

(** The digit loop of [strconv.Atoi]: [n = n*10 + int(ch)]. *)
Fixpoint parseDigits (s : string) (n : Z) : option Z :=
  match s with
  | EmptyString => Some n
  | String ch rest =>
      match digitValue ch with
      | Some d => parseDigits rest (n * 10 + d)
      | None => None
      end
  end.

(** [strconv.Atoi] where [int] has 64 bits: an optional sign, then one
    decimal digit at least and decimal digits only; [None] for a syntax
    error and for a value that does not fit. *)
Definition Atoi (s : string) : option Z :=
  match s with
  | EmptyString => None
  | String c rest =>
      let signed := Ascii.eqb c "-" || Ascii.eqb c "+" in
      let digits := if signed then rest else s in
      match digits with
      | EmptyString => None
      | _ =>
          match parseDigits digits 0 with
          | Some n =>
              let v := if Ascii.eqb c "-" then (- n)%Z else n in
              if bool_decide (- 2 ^ 63 ≤ v < 2 ^ 63)%Z then Some v else None
          | None => None
          end
      end
  end.

(** Whether the byte [c] occurs in [s]. *)
Fixpoint mentions (c : ascii) (s : string) : bool :=
  match s with
  | EmptyString => false
  | String a rest => Ascii.eqb a c || mentions c rest
  end.

(** Only decimal digits. *)
Fixpoint allDigits (s : string) : bool :=
  match s with
  | EmptyString => true
  | String a rest =>
      match digitValue a with
      | Some _ => allDigits rest
      | None => false
      end
  end.

End GoStrings.

(** Library functions whose full definition (Unicode case tables, path
    cleaning) is outside the two packages.  No property below depends on
    what they return. *)
Class GoStdlib := {
  strings_ToLower : string → string;
  filepath_Join : string → string → string;
}.

(** ** internal/telegraph: the data model *)

(** A decoded JSON value, the dynamic type behind [interface{}]. *)
Inductive AttrValue :=
| VString (s : string)
| VNumber (float64bits : N)
| VBool (b : bool)
| VNull
| VArray (elems : list AttrValue)
| VObject (fields : list (string * AttrValue)).

(** [telegraph.ContentNode].  [Attrs] is [None] for a nil map. *)
Inductive ContentNode := mkNode {
  Tag : string;
  Attrs : option (gmap string AttrValue);
  Children : list ContentNode;
}.

(** [telegraph.MediaItem]. *)
Record MediaItem := mkItem {
  URL : string;
  Filename : string;
}.

(** [telegraph.Content]. *)
Record Content := mkContent {
  Title : string;
  Nodes : list ContentNode;
}.

(** The induction principle for trees whose children are a list. *)
Section ContentNodeInd.
Variable P : ContentNode → Prop.
Hypothesis Hnode : ∀ tag attrs children,
  Forall P children → P (mkNode tag attrs children).

Fixpoint ContentNode_tree_ind (n : ContentNode) : P n :=
  match n with
  | mkNode tag attrs children =>
      Hnode tag attrs children
        ((fix all (l : list ContentNode) : Forall P l :=
            match l with
            | [] => Forall_nil_2 P
            | c :: l' => Forall_cons_2 P c l' (ContentNode_tree_ind c) (all l')
            end) children)
  end.
End ContentNodeInd.


(** Go [error] values.  Errors made by the operating system and by the
    network stack are known only by their text. *)
Inductive GoError :=
| ErrText (msg : string)
| ErrWrap (pre : string) (inner : GoError)
| ErrValidation (field message : string)
| ErrMulti (errs : list GoError)
| ErrCanceled
| ErrDeadlineExceeded.

(** The text [errors.Join] gives to texts that are already rendered: one
    per line. *)
Fixpoint joinLines (texts : list string) : string :=
  match texts with
  | [] => ""
  | [t] => t
  | t :: rest => t +:+ String "010" (joinLines rest)
  end.

(** The [Error()] method.  [ErrWrap pre e] is [fmt.Errorf(pre + "%w", e)];
    [ErrMulti] is [telegraph.MultiError]. *)
Fixpoint errorText (e : GoError) : string :=
  match e with
  | ErrText msg => msg
  | ErrWrap pre inner => pre +:+ errorText inner
  | ErrValidation field message => "validation error: " +:+ field +:+ " " +:+ message
  | ErrMulti errs =>
      match errs with
      | [] => "no errors"
      | [e] => errorText e
      | _ => joinLines (List.map errorText errs)
      end
  | ErrCanceled => "context canceled"
  | ErrDeadlineExceeded => "context deadline exceeded"
  end.

(** [MultiError.AddError]: a nil error is not recorded. *)
Definition AddError (errs : list GoError) (err : option GoError) : list GoError :=
  match err with
  | Some e => errs ++ [e]
  | None => errs
  end.

(** ** internal/parser: the media extractor *)

Module Parser.
Import GoStrings.

(** [MediaParser]; a nil [urlFilter] is [None]. *)
Record MediaParser := mkParser {
  supportedTags : list string;
  fileExtensions : list string;
  urlFilter : option (string → bool);
}.

(** [DefaultConfig] followed by [NewWithConfig], that is [New]. *)
Definition New : MediaParser :=
  {| supportedTags := ["img"; "video"; "audio"; "source"];
     fileExtensions := [".jpg"; ".jpeg"; ".png"; ".gif"; ".webp";
                        ".mp4"; ".mov"; ".avi"; ".mp3"; ".wav"];
     urlFilter := None |}.

(** [ParsedMedia]: the embedded [MediaItem] and the metadata.  Its
    fields [Tag] and [Title] are [PTag] and [PTitle] here. *)
Record ParsedMedia := mkParsed {
  Item : MediaItem;
  PTag : string;
  Alt : string;
  PTitle : string;
  NodeIndex : nat;
}.

(** The zero value [ParsedMedia{}]. *)
Definition zeroParsed : ParsedMedia :=
  {| Item := mkItem "" ""; PTag := ""; Alt := ""; PTitle := ""; NodeIndex := 0 |}.

(** [isMediaTag]: [slices.Contains(p.supportedTags, tag)]. *)
Definition isMediaTag (p : MediaParser) (tag : string) : bool :=
  bool_decide (tag ∈ supportedTags p).

(** The type assertion [attrs[key].(string)]. *)
Definition stringAttr (attrs : gmap string AttrValue) (key : string) : option string :=
  match attrs !! key with
  | Some (VString s) => Some s
  | _ => None
  end.

(** [extractStringAttr]. *)
Definition extractStringAttr (attrs : gmap string AttrValue) (key : string) : string :=
  default "" (stringAttr attrs key).

Section WithStdlib.
Context `{GoStdlib}.

(** The loop of [addExtensionFromURL].  [ext[1:]] panics on an empty
    [ext]: slice bounds out of range. *)
Fixpoint guessExtension (filename lowerURL : string) (exts : list string)
  : option string :=
  match exts with
  | [] => Some (filename +:+ ".jpg")
  | ext :: rest =>
      match ext with
      | EmptyString => None
      | String _ tail =>
          if Contains lowerURL tail then Some (filename +:+ ext)
          else guessExtension filename lowerURL rest
      end
  end.

(** [addExtensionFromURL]. *)
Definition addExtensionFromURL (p : MediaParser) (filename url : string)
  : option string :=
  if Contains url "/file/" then Some (filename +:+ ".jpg")
  else guessExtension filename (strings_ToLower url) (fileExtensions p).

(** [generateFilename]. *)
Definition generateFilename (p : MediaParser) (url : string) (index : nat)
  : option string :=
  let baseFilename :=
    if Contains url "/" then List.last (Split url "/") EmptyString else url in
  let baseFilename :=
    match IndexAny baseFilename "?#" with
    | Some idx => sliceTo baseFilename idx
    | None => baseFilename
    end in
  baseFilename ←
    (if String.eqb (Ext baseFilename) "" then addExtensionFromURL p baseFilename url
     else Some baseFilename);
  Some (pretty index +:+ "_" +:+ baseFilename).

(** [parseMediaNode]: the item and the [ok] flag, or a panic raised by
    [generateFilename]. *)
Definition parseMediaNode (p : MediaParser) (node : ContentNode) (index : nat)
  : option (ParsedMedia * bool) :=
  match Attrs node with
  | None => Some (zeroParsed, false)
  | Some attrs =>
      match stringAttr attrs "src" with
      | None => Some (zeroParsed, false)
      | Some src =>
          if String.eqb src "" then Some (zeroParsed, false)
          else if match urlFilter p with
                  | Some accept => negb (accept src)
                  | None => false
                  end
          then Some (zeroParsed, false)
          else
            let alt := extractStringAttr attrs "alt" in
            let title := extractStringAttr attrs "title" in
            filename ← generateFilename p src index;
            Some ({| Item := {| URL := src; Filename := filename |};
                     PTag := Tag node; Alt := alt; PTitle := title;
                     NodeIndex := index |}, true)
      end
  end.

(** What the walker does, in order.  The log is ghost state: nothing
    reads it. *)
Inductive Event :=
| EvVisit (node : ContentNode)
| EvYield (item : ParsedMedia) (more : bool).

(** The state threaded through the traversal: the shared counter
    [*mediaIndex], the state of whoever consumes the sequence, and the
    log. *)
Record Walk (C : Type) := mkWalk {
  mediaIndex : nat;
  sink : C;
  trace : list Event;
}.
Global Arguments mkWalk {C} _ _ _.
Global Arguments mediaIndex {C} _.
Global Arguments sink {C} _.
Global Arguments trace {C} _.

Section Walker.
Context {C : Type}.
Variable p : MediaParser.
(** The consumer: [yield] returns whether more items are wanted. *)
Variable yield : ParsedMedia → C → bool * C.

(** One loop iteration of [walkNodesForMedia] up to the recursive
    call.  The flag is [false] when the function returns because
    [yield] returned [false]. *)
Definition visitNode (node : ContentNode) (w : Walk C) : option (bool * Walk C) :=
  let w := mkWalk (mediaIndex w) (sink w) (trace w ++ [EvVisit node]) in
  if isMediaTag p (Tag node) then
    '(item, ok) ← parseMediaNode p node (mediaIndex w);
    if ok : bool then
      let '(more, c) := yield item (sink w) in
      if more then
        Some (true, mkWalk (S (mediaIndex w)) c (trace w ++ [EvYield item true]))
      else
        Some (false, mkWalk (mediaIndex w) c (trace w ++ [EvYield item false]))
    else Some (true, w)
  else Some (true, w).

(** One full loop iteration: the node itself, then the recursive call
    on its children.  The recursive call returns nothing, so the loop
    goes on to the next sibling however that call ended. *)
Fixpoint walkNode (node : ContentNode) (w : Walk C) {struct node}
  : option (bool * Walk C) :=
  '(continue, w) ← visitNode node w;
  if continue : bool then
    match Children node with
    | [] => Some (true, w)
    | children =>
        w ← (fix loop (nodes : list ContentNode) (w : Walk C) : option (Walk C) :=
               match nodes with
               | [] => Some w
               | n :: rest =>
                   '(continue, w) ← walkNode n w;
                   if continue : bool then loop rest w else Some w
               end) children w;
        Some (true, w)
    end
  else Some (false, w).

(** [walkNodesForMedia]. *)
Fixpoint walkNodesForMedia (nodes : list ContentNode) (w : Walk C) : option (Walk C) :=
  match nodes with
  | [] => Some w
  | n :: rest =>
      '(continue, w) ← walkNode n w;
      if continue : bool then walkNodesForMedia rest w else Some w
  end.

(** [iterateMediaItems], run against the consumer from state [c]. *)
Definition iterateMediaItems (nodes : list ContentNode) (c : C) : option (Walk C) :=
  walkNodesForMedia nodes (mkWalk 0 c []).
End Walker.

(** The loop body of [ExtractMediaDetailed]: append, ask for more. *)
Definition appendParsed (item : ParsedMedia) (acc : list ParsedMedia)
  : bool * list ParsedMedia := (true, acc ++ [item]).

(** The loop body of [ExtractMedia]. *)
Definition appendItem (item : ParsedMedia) (acc : list MediaItem)
  : bool * list MediaItem := (true, acc ++ [Item item]).

(** [ExtractMediaDetailed]. *)
Definition ExtractMediaDetailed (p : MediaParser) (content : Content)
  : option (list ParsedMedia) :=
  sink <$> iterateMediaItems p appendParsed (Nodes content) [].

(** [ExtractMedia]. *)
Definition ExtractMedia (p : MediaParser) (content : Content)
  : option (list MediaItem) :=
  sink <$> iterateMediaItems p appendItem (Nodes content) [].

(** A consumer that wants [k] items, passed to the sequence as its
    [yield]: [func(item ParsedMedia) bool { got = append(got, item);
    return len(got) != k }]. *)
Definition takeItems (k : nat) (item : ParsedMedia) (got : list ParsedMedia)
  : bool * list ParsedMedia :=
  let got := got ++ [item] in (negb (length got =? k)%nat, got).

(** The nodes a log visits and the items it yields, in order. *)
Definition visited (log : list Event) : list ContentNode :=
  omap (λ e, match e with EvVisit node => Some node | _ => None end) log.

Definition yielded (log : list Event) : list ParsedMedia :=
  omap (λ e, match e with EvYield item _ => Some item | _ => None end) log.

(** The events of a log that follow the first refusal of an item. *)
Fixpoint afterRefusal (log : list Event) : list Event :=
  match log with
  | [] => []
  | EvYield _ false :: rest => rest
  | _ :: rest => afterRefusal rest
  end.

(** The loop iterations, without recursion, over a flat sequence of
    nodes. *)
Fixpoint visitAll {C} (p : MediaParser) (yield : ParsedMedia → C → bool * C)
    (flat : list ContentNode) (w : Walk C) : option (Walk C) :=
  match flat with
  | [] => Some w
  | node :: rest => '(_, w) ← visitNode p yield node w; visitAll p yield rest w
  end.

(** [Stats]. *)
Record Stats := mkStats {
  TotalNodes : nat;
  MediaNodes : nat;
  ValidMedia : nat;
  InvalidMedia : nat;
  UniqueURLs : nat;
  Errors : list GoError;
}.

(** [countTotalNodes]. *)
Fixpoint countNode (node : ContentNode) : nat :=
  (fix count (nodes : list ContentNode) : nat :=
     match nodes with
     | [] => 0
     | n :: rest => S (countNode n) + count rest
     end) (Children node).

Fixpoint countTotalNodes (nodes : list ContentNode) : nat :=
  match nodes with
  | [] => 0
  | n :: rest => S (countNode n) + countTotalNodes rest
  end.

(** The locals of [ExtractWithStats] that its loop body updates. *)
Record Extraction := mkExtraction {
  stats : Stats;
  mediaItems : list MediaItem;
  urlSet : gmap string bool;
}.

(** The loop body of [ExtractWithStats]; [continue] and the end of the
    body both ask for the next item. *)
Definition statsBody (item : ParsedMedia) (x : Extraction) : bool * Extraction :=
  let st := stats x in
  let st := mkStats (TotalNodes st) (S (MediaNodes st)) (ValidMedia st)
                    (InvalidMedia st) (UniqueURLs st) (Errors st) in
  if String.eqb (URL (Item item)) "" then
    let st := mkStats (TotalNodes st) (MediaNodes st) (ValidMedia st)
                      (S (InvalidMedia st)) (UniqueURLs st)
                      (AddError (Errors st)
                         (Some (ErrText ("empty URL in node " +:+ pretty (NodeIndex item))))) in
    (true, mkExtraction st (mediaItems x) (urlSet x))
  else
    let st := mkStats (TotalNodes st) (MediaNodes st) (S (ValidMedia st))
                      (InvalidMedia st) (UniqueURLs st) (Errors st) in
    let items := mediaItems x ++ [Item item] in
    let seen :=
      if negb (default false (urlSet x !! URL (Item item)))
      then <[URL (Item item) := true]> (urlSet x)
      else urlSet x in
    (true, mkExtraction st items seen).

(** [ExtractWithStats]. *)
Definition ExtractWithStats (p : MediaParser) (content : Content)
  : option (list MediaItem * Stats) :=
  w ← iterateMediaItems p statsBody (Nodes content)
        (mkExtraction (mkStats 0 0 0 0 0 []) [] ∅);
  let x := sink w in
  let st := stats x in
  Some (mediaItems x,
        mkStats (countTotalNodes (Nodes content)) (MediaNodes st) (ValidMedia st)
                (InvalidMedia st) (size (urlSet x)) (Errors st)).

End WithStdlib.

(** [slices.DeleteFunc(slices.Clone(s), del)]: [del] is called once on
    every element, in order (first by [IndexFunc], then by the copying
    loop); the elements it accepts are removed.  [del] may keep state. *)
Fixpoint DeleteFunc {A S : Type} (del : A → S → bool * S) (s : list A) (st : S) : list A :=
  match s with
  | [] => []
  | v :: rest =>
      let '(gone, st) := del v st in
      if gone : bool then DeleteFunc del rest st else v :: DeleteFunc del rest st
  end.

(** The closure passed by [DeduplicateURLs]; [seen[k]] of a missing key
    is [false]. *)
Definition seenBefore (item : MediaItem) (seen : gmap string bool) : bool * gmap string bool :=
  if default false (seen !! URL item) then (true, seen)
  else (false, <[URL item := true]> seen).

(** [DeduplicateURLs]. *)
Definition DeduplicateURLs (items : list MediaItem) : list MediaItem :=
  DeleteFunc seenBefore items ∅.

(** *** The design document's reading of the traversal *)

(** Document order: an element, then its children in order, each with
    all of its descendants, then the following sibling. *)
Fixpoint preorderNode (node : ContentNode) : list ContentNode :=
  node :: flat_map preorderNode (Children node).

Definition preorder (nodes : list ContentNode) : list ContentNode :=
  flat_map preorderNode nodes.

(** The items of a flat sequence of nodes: each accepted node gives one
    item, numbered by the count of items before it. *)
Fixpoint itemsInOrder `{GoStdlib} (p : MediaParser) (flat : list ContentNode) (index : nat)
  : option (list ParsedMedia) :=
  match flat with
  | [] => Some []
  | node :: rest =>
      if isMediaTag p (Tag node) then
        '(item, ok) ← parseMediaNode p node index;
        if ok : bool then (item ::.) <$> itemsInOrder p rest (S index)
        else itemsInOrder p rest index
      else itemsInOrder p rest index
  end.

(** Deduplication as the design document words it: an item stays exactly
    when its URL does not occur at an earlier position. *)
Definition firstOccurrences (items : list MediaItem) : list MediaItem :=
  snd <$> filter (λ ix : nat * MediaItem, URL ix.2 ∉ URL <$> take ix.1 items)
                 (imap pair items).

(** *** Relations and invariants of the traversal *)

(** A consumer that never breaks. *)
Definition accepting {C} (yield : ParsedMedia → C → bool * C) : Prop :=
  ∀ item c, (yield item c).1 = true.

(** Two walker states that differ only in what the consumer holds. *)
Definition sameWalk {C1 C2} (R : C1 → C2 → Prop) (w1 : Walk C1) (w2 : Walk C2) : Prop :=
  mediaIndex w1 = mediaIndex w2 ∧ trace w1 = trace w2 ∧ R (sink w1) (sink w2).

(** The same, after one loop iteration: the flags agree too. *)
Definition sameStep {C1 C2} (R : C1 → C2 → Prop)
    (x1 : bool * Walk C1) (x2 : bool * Walk C2) : Prop :=
  x1.1 = x2.1 ∧ sameWalk R x1.2 x2.2.

(** What every loop iteration of [ExtractMediaDetailed] keeps: the items
    held are the items yielded, the i-th holds index i, the counter is
    their number, and every filename starts with the item's index. *)
Definition dense (w : Walk (list ParsedMedia)) : Prop :=
  NodeIndex <$> sink w = seq 0 (mediaIndex w) ∧
  yielded (trace w) = sink w ∧
  Forall (λ item, ∃ base,
            Filename (Item item) = pretty (NodeIndex item) +:+ "_" +:+ base) (sink w).

(** What the loop of [ExtractWithStats] holds, against what the loop of
    [ExtractMedia] holds. *)
Definition sameItems (x : Extraction) (items : list MediaItem) : Prop :=
  mediaItems x = items ∧ InvalidMedia (stats x) = 0 ∧ Errors (stats x) = [].

(** [seen] holds exactly the URLs of the items [pre]. *)
Definition seenAre (seen : gmap string bool) (pre : list MediaItem) : Prop :=
  ∀ u, default false (seen !! u) = true ↔ u ∈ URL <$> pre.


(** *** The remaining operations on extracted items *)

(** [extractIndexFromFilename]. *)
Definition extractIndexFromFilename (filename : string) : Z :=
  match Index filename "_" with
  | Some idx =>
      match Atoi (sliceTo filename idx) with
      | Some num => num
      | None => 0%Z
      end
  | None => 0%Z
  end.

(** The body of the loop of [ValidateMedia] for [items[i]]. *)
Definition validateItem (i : nat) (item : MediaItem) (errors : list GoError)
  : list GoError :=
  let errors :=
    if String.eqb (URL item) "" then
      AddError errors
        (Some (ErrValidation ("items[" +:+ pretty i +:+ "].URL") "cannot be empty"))
    else errors in
  let errors :=
    if String.eqb (Filename item) "" then
      AddError errors
        (Some (ErrValidation ("items[" +:+ pretty i +:+ "].Filename") "cannot be empty"))
    else errors in
  if Contains (Filename item) ".." then
    AddError errors
      (Some (ErrValidation ("items[" +:+ pretty i +:+ "].Filename")
               "contains path traversal"))
  else errors.

(** [ValidateMedia]: the [Errors] of the [MultiError] it returns. *)
Definition ValidateMedia (items : list MediaItem) : list GoError :=
  foldl (λ errors ix, validateItem ix.1 ix.2 errors) [] (imap pair items).

(** What [ValidateMedia] looks for. *)
Definition wellFormed (item : MediaItem) : Prop :=
  URL item ≠ "" ∧ Filename item ≠ "" ∧ Contains (Filename item) ".." = false.

(** The closure [FilterByExtension] passes to [slices.DeleteFunc]. *)
Definition extensionNotListed `{GoStdlib} (extensions : list string)
    (item : MediaItem) (_ : unit) : bool * unit :=
  let ext := strings_ToLower (Ext (Filename item)) in
  (negb (bool_decide (ext ∈ extensions)), tt).

(** [FilterByExtension]. *)
Definition FilterByExtension `{GoStdlib} (items : list MediaItem)
    (extensions : list string) : list MediaItem :=
  match extensions with
  | [] => items
  | _ => DeleteFunc (extensionNotListed extensions) items tt
  end.

(** The key [GroupByExtension] files an item under. *)
Definition groupKey `{GoStdlib} (item : MediaItem) : string :=
  let ext := strings_ToLower (Ext (Filename item)) in
  if String.eqb ext "" then "unknown" else ext.

(** [GroupByExtension]; [groups[ext]] of a missing key is the nil slice. *)
Definition GroupByExtension `{GoStdlib} (items : list MediaItem)
  : gmap string (list MediaItem) :=
  foldl (λ groups item,
           <[groupKey item := default [] (groups !! groupKey item) ++ [item]]> groups)
        ∅ items.

(** What the loop of [ExtractWithStats] keeps: both counters count the
    items kept, the keys of [urlSet] are the URLs of the items, all with
    value [true], and no more items are kept than nodes were visited. *)
Definition statsInv (w : Walk Extraction) : Prop :=
  let x := sink w in
  MediaNodes (stats x) = length (mediaItems x) ∧
  ValidMedia (stats x) = length (mediaItems x) ∧
  dom (urlSet x) = list_to_set (URL <$> mediaItems x) ∧
  (∀ u v, urlSet x !! u = Some v → v = true) ∧
  (length (mediaItems x) ≤ length (visited (trace w)))%nat.

End Parser.

(** ** internal/downloader: one job *)

Module Downloader.
Import GoStrings.

(** [Result]; a nil [Error] is [None]. *)
Record Result := mkResult {
  Item : MediaItem;
  Size : Z;
  Error : option GoError;
  Skipped : bool;
}.

(** [Stats].  The field [Skipped] is [SkippedFiles] here, the name being
    taken by [Result]. *)
Record Stats := mkStats {
  Total : nat;
  Successful : nat;
  Failed : nat;
  SkippedFiles : nat;
  TotalSize : Z;
  Duration : Z;
}.

(** [Downloader] without its HTTP client, which is part of the outside
    world below. *)
Record Downloader := mkDownloader {
  maxWorkers : Z;
  outputDir : string;
  telegraphFileBase : string;
  retries : Z;
}.

(** Addition of [int64] values. *)
Definition wrap64 (z : Z) : Z := (z + 2 ^ 63) mod 2 ^ 64 - 2 ^ 63.
Definition add64 (a b : Z) : Z := wrap64 (a + b).

(** [buildURL]. *)
Definition buildURL (d : Downloader) (url : string) : string :=
  if HasPrefix url "http://" || HasPrefix url "https://" then url
  else telegraphFileBase d +:+ url.

(** *** The outside world *)

(** Why the context ended: what [ctx.Err()] returns. *)
Inductive Cause := Canceled | DeadlineExceeded.

Definition causeErr (c : Cause) : GoError :=
  match c with
  | Canceled => ErrCanceled
  | DeadlineExceeded => ErrDeadlineExceeded
  end.

(** One [src.Read] and the [dst.Write] that follows it when bytes were
    read.  [readErr] is [None] for a nil error, [Some None] for [io.EOF]
    and [Some (Some e)] for any other error. *)
Record Chunk := mkChunk {
  nr : Z;
  readErr : option (option GoError);
  nw : Z;
  writeErr : option GoError;
}.

(** What the network and the file system answer during one attempt:
    [http.NewRequestWithContext], [client.Do] (an error, or a status code
    and a body, which is a finite run of reads ending in [io.EOF] at the
    latest when it runs out), and [os.Create]. *)
Record Exchange := mkExchange {
  newRequestErr : option GoError;
  response : GoError + (Z * list Chunk);
  createErr : option GoError;
}.

(** The environment of one job: the answers to its n-th attempt, and the
    moment the context ends, counted in observations of [ctx.Done()]:
    [Some (n, c)] means the n-th observation (from 0) and all later ones
    find it closed. *)
Record Env := mkEnv {
  exchange : nat → string → Exchange;
  ctxEnds : option (nat * Cause);
}.

(** What a job does to the outside, in order.  Ghost state. *)
Inductive Effect :=
| EfAttempt
| EfRequest (url : string)
| EfCreate (path : string)
| EfRemove (path : string)
| EfWait (seconds : Z).

(** The state a job runs in: the size of every file [os.Stat] can see,
    the number of observations of [ctx.Done()] made, the number of
    attempts started, and the log. *)
Record World := mkWorld {
  files : gmap string Z;
  polls : nat;
  attempts : nat;
  effects : list Effect;
}.

Definition setFiles (f : gmap string Z → gmap string Z) (w : World) : World :=
  mkWorld (f (files w)) (polls w) (attempts w) (effects w).

Definition logEffect (e : Effect) (w : World) : World :=
  mkWorld (files w) (polls w) (attempts w) (effects w ++ [e]).

(** One observation of [ctx.Done()]: [Some c] when it is closed. *)
Definition ctxDone (env : Env) (w : World) : option Cause * World :=
  let w' := mkWorld (files w) (S (polls w)) (attempts w) (effects w) in
  match ctxEnds env with
  | Some (n, c) => if bool_decide (n ≤ polls w)%nat then (Some c, w') else (None, w')
  | None => (None, w')
  end.

Section Job.
Context `{GoStdlib}.
Variable env : Env.
Variable d : Downloader.

(** [copyWithContext] into the file at [path].  [written] is the
    running total; the file grows by what each write reports. *)
Fixpoint copyWithContext (path : string) (body : list Chunk) (written : Z) (w : World)
  : (Z * option GoError) * World :=
  let '(done, w) := ctxDone env w in
  match done with
  | Some c => ((written, Some (causeErr c)), w)
  | None =>
      match body with
      | [] => ((written, None), w)
      | chunk :: rest =>
          let afterRead (written : Z) (w : World) :=
            match readErr chunk with
            | Some (Some e) => ((written, Some e), w)
            | Some None => ((written, None), w)
            | None => copyWithContext path rest written w
            end in
          if bool_decide (0 < nr chunk)%Z then
            let invalid := bool_decide (nw chunk < 0 ∨ nr chunk < nw chunk)%Z in
            let n := if invalid then 0%Z else nw chunk in
            let ew := if invalid
                      then Some (default (ErrText "invalid write result") (writeErr chunk))
                      else writeErr chunk in
            let written := add64 written n in
            let w := setFiles (λ fs, <[path := (default 0%Z (fs !! path) + n)%Z]> fs) w in
            match ew with
            | Some e => ((written, Some e), w)
            | None =>
                if bool_decide (nr chunk ≠ n) then ((written, Some (ErrText "short write")), w)
                else afterRead written w
            end
          else afterRead written w
      end
  end.

(** [downloadFileWithContext]: one attempt.  The two [os.Stat] calls
    of the skip check see the same file; the line printed on a skip
    and the deferred [Close] calls change nothing that is modelled. *)
Definition downloadFileWithContext (item : MediaItem) (w : World) : Result * World :=
  let failed (e : GoError) := mkResult item 0 (Some e) false in
  let filePath := filepath_Join (outputDir d) (Filename item) in
  let x := exchange env (attempts w) (buildURL d (URL item)) in
  let w := logEffect EfAttempt (mkWorld (files w) (polls w) (S (attempts w)) (effects w)) in
  let transfer : Result * World :=
    let fullURL := buildURL d (URL item) in
    match newRequestErr x with
    | Some e => (failed (ErrWrap "failed to create request: " e), w)
    | None =>
        let w := logEffect (EfRequest fullURL) w in
        match response x with
        | inl e => (failed (ErrWrap "HTTP request failed: " e), w)
        | inr (status, body) =>
            if bool_decide (status ≠ 200)%Z
            then (failed (ErrText ("HTTP " +:+ pretty status)), w)
            else
              match createErr x with
              | Some e => (failed (ErrWrap "failed to create file: " e), w)
              | None =>
                  let w := logEffect (EfCreate filePath) (setFiles (<[filePath := 0%Z]>) w) in
                  let '((size, err), w) := copyWithContext filePath body 0 w in
                  match err with
                  | Some e =>
                      let w := logEffect (EfRemove filePath) (setFiles (delete filePath) w) in
                      (failed (ErrWrap "failed to copy file: " e), w)
                  | None => (mkResult item size None false, w)
                  end
              end
        end
    end in
  match files w !! filePath with
  | Some size =>
      if bool_decide (0 < size)%Z then (mkResult item size None true, w) else transfer
  | None => transfer
  end.

(** The loop of [downloadFileWithRetryAndContext]: [remaining]
    iterations are left, [attempt] is the loop variable and [errors]
    the [MultiError] so far. *)
Fixpoint retryLoop (remaining : nat) (attempt : Z) (errors : list GoError)
    (item : MediaItem) (w : World) : Result * World :=
  match remaining with
  | 0 => (mkResult item 0 (Some (ErrMulti errors)) false, w)
  | S remaining =>
      let '(done, w) := ctxDone env w in
      match done with
      | Some c => (mkResult item 0 (Some (causeErr c)) false, w)
      | None =>
          let '(result, w) := downloadFileWithContext item w in
          match Error result with
          | None => (result, w)
          | Some e =>
              let errors :=
                AddError errors
                  (Some (ErrWrap ("attempt " +:+ pretty (attempt + 1)%Z +:+ ": ") e)) in
              if Contains (errorText e) "404"
              then (mkResult item 0 (Some (ErrMulti errors)) false, w)
              else if bool_decide (attempt < retries d)%Z then
                let w := logEffect (EfWait (attempt + 1)) w in
                let '(done, w) := ctxDone env w in
                match done with
                | Some c => (mkResult item 0 (Some (causeErr c)) false, w)
                | None => retryLoop remaining (attempt + 1) errors item w
                end
              else retryLoop remaining (attempt + 1) errors item w
          end
      end
  end.

(** [downloadFileWithRetryAndContext].  The loop runs while
    [attempt <= retries], that is [retries + 1] times at most; the
    counter cannot wrap for [retries < 2^63 - 1]. *)
Definition downloadFileWithRetryAndContext (item : MediaItem) (w : World) : Result * World :=
  retryLoop (Z.to_nat (retries d + 1)) 0 [] item w.

End Job.

(** ** internal/downloader: the worker pool *)

(** The body of the collecting loop of [DownloadAllWithContext]. *)
Definition collect (st : Stats) (r : Result) : Stats :=
  match Error r with
  | Some _ =>
      mkStats (Total st) (Successful st) (S (Failed st)) (SkippedFiles st)
              (TotalSize st) (Duration st)
  | None =>
      if Skipped r then
        mkStats (Total st) (Successful st) (Failed st) (S (SkippedFiles st))
                (TotalSize st) (Duration st)
      else
        mkStats (Total st) (S (Successful st)) (Failed st) (SkippedFiles st)
                (add64 (TotalSize st) (Size r)) (Duration st)
  end.

(** The collecting loop over the results received so far. *)
Definition drain (st : Stats) (rs : list Result) : Stats := foldl collect st rs.

(** Where a worker goroutine stands: at the outer [select], at the inner
    [select] with the result of its job, or returned. *)
Inductive Worker :=
| Idle
| Holding (r : Result)
| Exited.

(** The goroutines and channels of [DownloadAllWithContext]:
    the sender's position in [items], whether it has closed [jobs], the
    two channel buffers, the workers, whether [ctx.Done()] is closed, and
    the locals of the collecting loop ([notified] logs the arguments of
    the progress callback). *)
Record Pool := mkPool {
  toSend : list MediaItem;
  senderDone : bool;
  jobs : list MediaItem;
  workers : list Worker;
  results : list Result;
  cancelled : bool;
  allResults : list Result;
  stats : Stats;
  completed : nat;
  notified : list nat;
}.

(** What can happen next.  Both channels have room for every item, so a
    send never blocks; a [select] with several ready cases takes any of
    them. *)
Inductive Action :=
| Cancel
| Send
| SenderStop
| Take (i : nat) (r : Result)
| WorkerStop (i : nat)
| Deliver (i : nat)
| Drop (i : nat)
| Collect.

Global Instance MediaItem_eq_dec : EqDecision MediaItem.
Proof. solve_decision. Defined.

Definition setWorker (i : nat) (x : Worker) (s : Pool) : Pool :=
  mkPool (toSend s) (senderDone s) (jobs s) (<[i := x]> (workers s)) (results s)
         (cancelled s) (allResults s) (stats s) (completed s) (notified s).

(** One step of one goroutine; [None] when the action is not enabled.
    [Take i r]: worker [i] receives the next job and
    [downloadFileWithRetryAndContext] returns [r] for it. *)
Definition exec (a : Action) (s : Pool) : option Pool :=
  match a with
  | Cancel =>
      if cancelled s then None
      else Some (mkPool (toSend s) (senderDone s) (jobs s) (workers s) (results s)
                        true (allResults s) (stats s) (completed s) (notified s))
  | Send =>
      match senderDone s, toSend s with
      | false, item :: rest =>
          Some (mkPool rest false (jobs s ++ [item]) (workers s) (results s)
                       (cancelled s) (allResults s) (stats s) (completed s) (notified s))
      | _, _ => None
      end
  | SenderStop =>
      if senderDone s then None
      else if bool_decide (toSend s = []) || cancelled s then
        Some (mkPool (toSend s) true (jobs s) (workers s) (results s)
                     (cancelled s) (allResults s) (stats s) (completed s) (notified s))
      else None
  | Take i r =>
      match workers s !! i, jobs s with
      | Some Idle, item :: rest =>
          if bool_decide (Item r = item) then
            Some (mkPool (toSend s) (senderDone s) rest (<[i := Holding r]> (workers s))
                         (results s) (cancelled s) (allResults s) (stats s)
                         (completed s) (notified s))
          else None
      | _, _ => None
      end
  | WorkerStop i =>
      match workers s !! i with
      | Some Idle =>
          if cancelled s || (senderDone s && bool_decide (jobs s = []))
          then Some (setWorker i Exited s) else None
      | _ => None
      end
  | Deliver i =>
      match workers s !! i with
      | Some (Holding r) =>
          Some (mkPool (toSend s) (senderDone s) (jobs s) (<[i := Idle]> (workers s))
                       (results s ++ [r]) (cancelled s) (allResults s) (stats s)
                       (completed s) (notified s))
      | _ => None
      end
  | Drop i =>
      match workers s !! i with
      | Some (Holding r) => if cancelled s then Some (setWorker i Exited s) else None
      | _ => None
      end
  | Collect =>
      match results s with
      | r :: rest =>
          Some (mkPool (toSend s) (senderDone s) (jobs s) (workers s) rest
                       (cancelled s) (allResults s ++ [r]) (collect (stats s) r)
                       (S (completed s)) (notified s ++ [S (completed s)]))
      | [] => None
      end
  end.

(** A schedule, run from [s]. *)
Fixpoint run (schedule : list Action) (s : Pool) : option Pool :=
  match schedule with
  | [] => Some s
  | a :: rest => s ← exec a s; run rest s
  end.

(** [DownloadAllWithContext] once its goroutines are started. *)
Definition start (d : Downloader) (items : list MediaItem) : Pool :=
  mkPool items false [] (replicate (Z.to_nat (maxWorkers d)) Idle) [] false
         [] (mkStats (length items) 0 0 0 0 0) 0 [].

(** Every worker has returned, so [results] is closed, and it is empty:
    the collecting loop ends and [DownloadAllWithContext] returns
    [stats] (with [Duration] stamped) and [allResults]. *)
Definition finished (s : Pool) : bool :=
  forallb (λ w, match w with Exited => true | _ => false end) (workers s)
  && bool_decide (results s = []).

(** What [DownloadAllWithContext] can return for [items]. *)
Definition DownloadAllWithContext (d : Downloader) (items : list MediaItem)
    (out : Stats * list Result) : Prop :=
  ∃ schedule s elapsed,
    run schedule (start d items) = Some s ∧ finished s = true ∧
    out = (mkStats (Total (stats s)) (Successful (stats s)) (Failed (stats s))
                   (SkippedFiles (stats s)) (TotalSize (stats s)) elapsed,
           allResults s).

(** *** Where the jobs are *)

(** The job a worker holds the result of. *)
Definition heldBy (w : Worker) : list MediaItem :=
  match w with
  | Holding r => [Item r]
  | _ => []
  end.

Definition held (ws : list Worker) : list MediaItem := ws ≫= heldBy.

(** Every job that has not been lost: collected, in the result channel,
    held by a worker, in the job channel, or not yet sent. *)
Definition inFlight (s : Pool) : list MediaItem :=
  (Item <$> allResults s) ++ (Item <$> results s) ++ held (workers s)
    ++ jobs s ++ toSend s.



(** What holds of every state the pool reaches from [start d items]:
    no job appears from nowhere; while the context has not ended no job
    is lost, the sender closes [jobs] only after its last send and a
    worker returns only when [jobs] is closed and empty; the statistics
    are those of the results collected. *)
Definition poolInv (items : list MediaItem) (s : Pool) : Prop :=
  inFlight s ⊆+ items ∧
  (cancelled s = false →
     inFlight s ≡ₚ items ∧
     (senderDone s = true → toSend s = []) ∧
     (Exited ∈ workers s → senderDone s = true ∧ jobs s = [])) ∧
  stats s = drain (mkStats (length items) 0 0 0 0 0) (allResults s) ∧
  completed s = length (allResults s) ∧
  notified s = seq 1 (completed s).

(** *** The design document's reading of results and of the log *)


(** A [Success]: neither an error nor a skip. *)
Definition isSuccess (r : Result) : bool :=
  match Error r with
  | Some _ => false
  | None => negb (Skipped r)
  end.

(** The sizes of the successes among [rs], added up. *)
Definition successBytes (rs : list Result) : Z :=
  foldr (λ r acc, if isSuccess r then (Size r + acc)%Z else acc) 0%Z rs.

(** The waits of a log, and its number of HTTP requests. *)
Definition waitsOf (log : list Effect) : list Z :=
  omap (λ e, match e with EfWait s => Some s | _ => None end) log.

Definition requestsOf (log : list Effect) : list string :=
  omap (λ e, match e with EfRequest url => Some url | _ => None end) log.

(** A failure carries no size, is no skip, and leaves the destination
    either as it was or removed. *)
Definition cleanFailure (path : string) (w : World) (out : Result * World) : Prop :=
  match Error out.1 with
  | Some _ =>
      Size out.1 = 0%Z ∧ Skipped out.1 = false ∧
      (files out.2 = files w ∨ files out.2 = delete path (files w))
  | None => True
  end.

(** The destination holds no file that the skip check would accept. *)
Definition nothingToSkip (path : string) (w : World) : Prop :=
  match files w !! path with
  | Some size => (size ≤ 0)%Z
  | None => True
  end.

(** The attempt started in [w] fails, and the retry loop takes its error
    for a not-found ([notFound = true]) or not. *)
Definition failsWith `{GoStdlib} (notFound : bool) (env : Env) (d : Downloader)
    (item : MediaItem) (w : World) : Prop :=
  ∃ e, Error (downloadFileWithContext env d item w).1 = Some e ∧
       Contains (errorText e) "404" = notFound.

(** The skip check as the design document words it: whenever the
    destination holds a file of positive size, the job's result is the
    skip with that size. *)
Definition skipsExistingFile `{GoStdlib} (env : Env) (d : Downloader)
    (item : MediaItem) (w : World) : Prop :=
  ∀ size, files w !! filepath_Join (outputDir d) (Filename item) = Some size →
    (0 < size)%Z →
    (downloadFileWithRetryAndContext env d item w).1 = mkResult item size None true.

(** *** What a copy reads *)

(** The bytes of the reads a copy gets through when nothing fails: those
    of every chunk up to the first one whose read returns an error, EOF
    included. *)
Fixpoint bytesRead (body : list Chunk) : Z :=
  match body with
  | [] => 0
  | chunk :: rest =>
      ((if bool_decide (0 < nr chunk)%Z then nr chunk else 0)
       + match readErr chunk with
         | None => bytesRead rest
         | Some _ => 0
         end)%Z
  end.

(** What one attempt can add to the log after [EfAttempt]. *)
Definition attemptTrail (url path : string) : list (list Effect) :=
  [ []; [EfRequest url]; [EfRequest url; EfCreate path];
    [EfRequest url; EfCreate path; EfRemove path] ].


(** The [MultiError] entries of consecutive failed attempts, the first
    one numbered [k]: [fmt.Errorf("attempt %d: %w", attempt+1, err)]. *)
Fixpoint attemptErrors (k : Z) (inners : list GoError) : list GoError :=
  match inners with
  | [] => []
  | inner :: rest =>
      ErrWrap ("attempt " +:+ pretty k +:+ ": ") inner :: attemptErrors (k + 1) rest
  end.
End Downloader.

(** ** internal/telegraph: the API client *)

Module Client.
Import GoStrings.

(** [ExtractPagePath]: the page path, or the error. *)
Definition ExtractPagePath (url : string) : GoError + string :=
  let pagePath := TrimPrefix url "https://telegra.ph/" in
  if String.eqb pagePath url
  then inl (ErrText "invalid Telegraph URL: must start with https://telegra.ph/")
  else inr pagePath.

End Client.

(** ** internal/app: the report *)

Module App.
Import Downloader.

(** The loop of [Run] that collects the texts of the download errors. *)
Definition downloadErrors (results : list Result) : list string :=
  omap (λ r, errorText <$> Error r) results.

End App.

(** ** Concrete inputs *)

Module Examples.
Import Parser.

(** Lower-casing of the ASCII letters, and joining with a slash: what the
    two library functions do on the inputs below. *)
Definition asciiLower (c : ascii) : ascii :=
  let n := nat_of_ascii c in
  if (65 <=? n)%nat && (n <=? 90)%nat then ascii_of_nat (n + 32) else c.

Fixpoint lower (s : string) : string :=
  match s with
  | EmptyString => EmptyString
  | String c rest => String (asciiLower c) (lower rest)
  end.

Definition plainStdlib : GoStdlib :=
  {| strings_ToLower := lower;
     filepath_Join := λ dir name, dir +:+ "/" +:+ name |}.

(** [<img src=...>] *)
Definition img (src : string) : ContentNode :=
  mkNode "img" (Some {[ "src" := VString src ]}) [].

(** [<figure><img src="/file/a.jpg"></figure><img src="/file/b.jpg">] *)
Definition figureThenImage : list ContentNode :=
  [mkNode "figure" None [img "/file/a.jpg"]; img "/file/b.jpg"].

Definition parsedB : ParsedMedia :=
  {| Item := mkItem "/file/b.jpg" "0_b.jpg"; PTag := "img"; Alt := "";
     PTitle := ""; NodeIndex := 0 |}.

Import Downloader.

Definition downloader3 : Downloader :=
  {| maxWorkers := 4; outputDir := "out";
     telegraphFileBase := "https://telegra.ph"; retries := 3 |}.

Definition emptyWorld : World := mkWorld ∅ 0 0 [].

(** An item whose file is already there, 1024 bytes long. *)
Definition itemA : MediaItem := mkItem "/file/a.jpg" "0_a.jpg".
Definition worldWithA : World := mkWorld {[ "out/0_a.jpg" := 1024%Z ]} 0 0 [].

(** A server that answers every request with [status] and no body. *)
Definition statusEnv (status : Z) (ends : option (nat * Cause)) : Env :=
  {| exchange := λ _ _, mkExchange None (inr (status, [])) None; ctxEnds := ends |}.

(** A server that answers 500 twice and 404 from then on. *)
Definition flakyEnv : Env :=
  {| exchange := λ n _,
       mkExchange None (inr (if (n <? 2)%nat then 500%Z else 404%Z, [])) None;
     ctxEnds := None |}.

(** A host that refuses the connection: [client.Do] fails with a
    [*url.Error], whose text quotes the URL. *)
Definition quoted (s : string) : string :=
  String "034" (s +:+ String "034" EmptyString).

Definition refusedEnv : Env :=
  {| exchange := λ _ url,
       mkExchange None
         (inl (ErrText ("Get " +:+ quoted url
                        +:+ ": dial tcp 203.0.113.7:443: connect: connection refused")))
         None;
     ctxEnds := None |}.

Definition item404 : MediaItem :=
  mkItem "https://cdn.example/img404.png" "0_img404.png".

(** A body of two reads of five bytes; the second write fails. *)
Definition brokenBody : list Chunk :=
  [mkChunk 5 None 5 None; mkChunk 5 None 2 (Some (ErrText "no space left on device"))].

Definition brokenCopyEnv : Env :=
  {| exchange := λ _ _, mkExchange None (inr (200%Z, brokenBody)) None;
     ctxEnds := None |}.

Definition itemB : MediaItem := mkItem "/file/b.jpg" "1_b.jpg".

Definition downloader1 : Downloader :=
  {| maxWorkers := 1; outputDir := "out";
     telegraphFileBase := "https://telegra.ph"; retries := 3 |}.

Definition downloader2 : Downloader :=
  {| maxWorkers := 4; outputDir := "out";
     telegraphFileBase := "https://telegra.ph"; retries := 2 |}.

Definition downloader0 : Downloader :=
  {| maxWorkers := 0; outputDir := "out";
     telegraphFileBase := "https://telegra.ph"; retries := 3 |}.

(** Two jobs, one worker, no cancellation: both sent, both downloaded,
    both collected. *)
Definition orderlyRun : list Action :=
  [Send; Send; SenderStop;
   Take 0 (mkResult itemA 1024 None false); Deliver 0;
   Take 0 (mkResult itemB 0 (Some (ErrText "HTTP 500")) false); Deliver 0;
   WorkerStop 0; Collect; Collect].



(** A consumer that refuses every item. *)
Definition refuseAll (item : ParsedMedia) (c : unit) : bool * unit := (false, c).

(** A body of two reads, of five bytes and of three; the second read
    returns [io.EOF] with its bytes. *)
Definition goodBody : list Chunk :=
  [mkChunk 5 None 5 None; mkChunk 3 (Some None) 3 None].

(** A server that answers every request with 200 and [goodBody]. *)
Definition servingEnv : Env :=
  {| exchange := λ _ _, mkExchange None (inr (200%Z, goodBody)) None;
     ctxEnds := None |}.

(** The destination of [itemA] just created. *)
Definition worldWithEmptyA : World := mkWorld {[ "out/0_a.jpg" := 0%Z ]} 0 0 [].

(** What [orderlyRun] returns, the duration left at 0. *)
Definition orderlyResults : list Result :=
  [mkResult itemA 1024 None false;
   mkResult itemB 0 (Some (ErrText "HTTP 500")) false].

Definition orderlyStats : Stats := mkStats 2 1 1 0 1024 0.

(** The [MultiError] of three attempts answered with 500. *)
Definition threeTimes500 : GoError :=
  ErrMulti [ErrWrap "attempt 1: " (ErrText "HTTP 500");
            ErrWrap "attempt 2: " (ErrText "HTTP 500");
            ErrWrap "attempt 3: " (ErrText "HTTP 500")].

End Examples.

(** * Properties of the media extractor *)

Section ParserProperties.
Import Parser GoStrings.
Context `{GoStdlib}.

(** ** The walker, one loop iteration at a time *)

Lemma walkNode_eq {C} p (yield : ParsedMedia → C → bool * C) node w :
  walkNode p yield node w =
    '(continue, w) ← visitNode p yield node w;
    if continue : bool then
      w ← walkNodesForMedia p yield (Children node) w; Some (true, w)
    else Some (false, w).
Proof.
  destruct node as [tag attrs children]. cbn [walkNode Children].
  destruct (visitNode p yield _ w) as [[[] w1]|]; cbn; try reflexivity.
  destruct children; reflexivity.
Qed.

(** A property of the walker's state that every loop iteration keeps is
    kept by the whole traversal, whatever the consumer answers. *)
Lemma walk_invariant {C} p (yield : ParsedMedia → C → bool * C) (I : Walk C → Prop) :
  (∀ node w b w', I w → visitNode p yield node w = Some (b, w') → I w') →
  ∀ nodes w w', I w → walkNodesForMedia p yield nodes w = Some w' → I w'.
Proof.
  intros Hstep.
  assert (Hnode : ∀ node w b w', I w → walkNode p yield node w = Some (b, w') → I w').
  { induction node as [tag attrs children IH] using ContentNode_tree_ind.
    intros w b w' Hw. rewrite walkNode_eq. cbn [Children].
    destruct (visitNode p yield _ w) as [[[] w1]|] eqn:Hv; cbn; [|naive_solver..].
    apply Hstep in Hv; [|done]. clear Hw w. revert w1 Hv.
    induction IH as [|c cs Hc _ IHcs]; intros w1 Hw1; cbn.
    - naive_solver.
    - destruct (walkNode p yield c w1) as [[[] w2]|] eqn:Hc2; cbn; [| |naive_solver].
      + apply Hc in Hc2; [|done]. apply IHcs. done.
      + apply Hc in Hc2; [|done]. naive_solver. }
  induction nodes as [|n ns IH]; intros w w' Hw; cbn.
  - naive_solver.
  - destruct (walkNode p yield n w) as [[[] w2]|] eqn:Hn; cbn; [| |naive_solver].
    + apply Hnode in Hn; [|done]. by apply IH.
    + apply Hnode in Hn; [|done]. naive_solver.
Qed.

(** The traversal returns when no loop iteration panics. *)
Lemma walk_total {C} p (yield : ParsedMedia → C → bool * C) :
  (∀ node w, is_Some (visitNode p yield node w)) →
  ∀ nodes w, is_Some (walkNodesForMedia p yield nodes w).
Proof.
  intros Hstep.
  assert (Hnode : ∀ node w, is_Some (walkNode p yield node w)).
  { induction node as [tag attrs children IH] using ContentNode_tree_ind.
    intros w. rewrite walkNode_eq. cbn [Children].
    destruct (Hstep (mkNode tag attrs children) w) as [[[] w1] ->]; cbn; [|done].
    cut (is_Some (walkNodesForMedia p yield children w1)).
    { intros [w2 ->]. done. }
    revert w1. induction IH as [|c cs Hc _ IHcs]; intros w1; cbn; [done|].
    destruct (Hc w1) as [[[] w2] ->]; cbn; [apply IHcs | done]. }
  induction nodes as [|n ns IH]; intros w; cbn; [done|].
  destruct (Hnode n w) as [[[] w2] ->]; cbn; [apply IH | done].
Qed.

Lemma generateFilename_prefix p url index name :
  generateFilename p url index = Some name →
  ∃ base, name = pretty index +:+ "_" +:+ base.
Proof.
  unfold generateFilename. intros Hg.
  apply bind_Some in Hg as (base & _ & [= <-]). by exists base.
Qed.

Lemma guessExtension_None filename lowerURL exts :
  guessExtension filename lowerURL exts = None → "" ∈ exts.
Proof.
  induction exts as [|ext rest IH]; cbn; [done|].
  destruct ext as [|c tail]; [intros _; left|].
  destruct (Contains lowerURL tail); [done|]. intros Hn. right. by apply IH.
Qed.

Lemma generateFilename_None p url index :
  generateFilename p url index = None → "" ∈ fileExtensions p.
Proof.
  unfold generateFilename. intros Hg. apply bind_None in Hg as [Hg|(? & _ & [=])].
  destruct (String.eqb _ _); [|done].
  unfold addExtensionFromURL in Hg. destruct (Contains url "/file/"); [done|].
  by eapply guessExtension_None.
Qed.

(** What an accepted node gives. *)
Lemma parseMediaNode_ok p node index item :
  parseMediaNode p node index = Some (item, true) →
  URL (Item item) ≠ "" ∧ NodeIndex item = index ∧ PTag item = Tag node ∧
  (∃ attrs, Attrs node = Some attrs ∧ stringAttr attrs "src" = Some (URL (Item item))) ∧
  ∃ base, Filename (Item item) = pretty index +:+ "_" +:+ base.
Proof.
  unfold parseMediaNode. destruct (Attrs node) as [attrs|]; [|done].
  destruct (stringAttr attrs "src") as [src|] eqn:Hsrc; [|done].
  destruct (String.eqb src "") eqn:Hne; [done|].
  destruct (match urlFilter p with Some _ => _ | None => _ end); [done|].
  destruct (generateFilename p src index) as [name|] eqn:Hname; cbn; [|done].
  intros [= <-]. cbn. apply String.eqb_neq in Hne.
  split_and!; [done..| by exists attrs | by eapply generateFilename_prefix].
Qed.

Lemma parseMediaNode_None p node index :
  parseMediaNode p node index = None → "" ∈ fileExtensions p.
Proof.
  unfold parseMediaNode. destruct (Attrs node) as [attrs|]; [|done].
  destruct (stringAttr attrs "src") as [src|]; [|done].
  destruct (String.eqb src ""); [done|].
  destruct (match urlFilter p with Some _ => _ | None => _ end); [done|].
  destruct (generateFilename p src index) as [name|] eqn:Hname; cbn; [done|].
  intros _. by eapply generateFilename_None.
Qed.

Lemma visitNode_None {C} p (yield : ParsedMedia → C → bool * C) node w :
  visitNode p yield node w = None → "" ∈ fileExtensions p.
Proof.
  unfold visitNode. cbn. destruct (isMediaTag p (Tag node)); [|done].
  destruct (parseMediaNode p node (mediaIndex w)) as [[item []]|] eqn:Hp; cbn.
  - by destruct (yield item (sink w)) as [[] c].
  - done.
  - intros _. by eapply parseMediaNode_None.
Qed.

(** Only an empty entry of [fileExtensions] can make the traversal
    panic. *)
Lemma walk_None {C} p (yield : ParsedMedia → C → bool * C) nodes w :
  walkNodesForMedia p yield nodes w = None → "" ∈ fileExtensions p.
Proof.
  intros Hnone. destruct (decide ("" ∈ fileExtensions p)) as [|Hno]; [done|].
  destruct (walk_total p yield) with (nodes := nodes) (w := w) as [w' Hw'].
  - intros node w0. destruct (visitNode p yield node w0) eqn:Hv; [done|].
    by apply visitNode_None in Hv.
  - congruence.
Qed.

Local Ltac related := constructor; unfold sameStep, sameWalk in *; cbn; intuition.

(** Consumers that answer alike on every item with a URL drive the
    walker alike. *)
Lemma walk_simulation {C1 C2} p (y1 : ParsedMedia → C1 → bool * C1)
    (y2 : ParsedMedia → C2 → bool * C2) (R : C1 → C2 → Prop) :
  (∀ item c1 c2, URL (Item item) ≠ "" → R c1 c2 →
     (y1 item c1).1 = (y2 item c2).1 ∧ R (y1 item c1).2 (y2 item c2).2) →
  ∀ nodes w1 w2, sameWalk R w1 w2 →
    option_Forall2 (sameWalk R)
      (walkNodesForMedia p y1 nodes w1) (walkNodesForMedia p y2 nodes w2).
Proof.
  intros Hy.
  set (Q := sameStep R).
  assert (Hvisit : ∀ node w1 w2, sameWalk R w1 w2 →
            option_Forall2 Q (visitNode p y1 node w1) (visitNode p y2 node w2)).
  { intros node w1 w2 (Hi & Ht & Hr). unfold visitNode. cbn. rewrite Hi, Ht.
    destruct (isMediaTag p (Tag node)); [|by related].
    destruct (parseMediaNode p node (mediaIndex w2)) as [[item []]|] eqn:Hp; cbn;
      [| by related | constructor].
    apply parseMediaNode_ok in Hp as (Hurl & _).
    destruct (Hy item _ _ Hurl Hr) as [Hb Hc].
    destruct (y1 item (sink w1)) as [b1 c1], (y2 item (sink w2)) as [b2 c2].
    cbn in Hb, Hc. subst b2. destruct b1; by related. }
  assert (Hnode : ∀ node w1 w2, sameWalk R w1 w2 →
            option_Forall2 Q (walkNode p y1 node w1) (walkNode p y2 node w2)).
  { induction node as [tag attrs children IH] using ContentNode_tree_ind.
    intros w1 w2 Hw. rewrite !walkNode_eq. cbn [Children].
    destruct (Hvisit (mkNode tag attrs children) _ _ Hw)
      as [[b1 v1] [b2 v2] [Hb Hv]|]; cbn in *; [|constructor].
    subst b2. destruct b1; [|by related].
    cut (option_Forall2 (sameWalk R) (walkNodesForMedia p y1 children v1)
           (walkNodesForMedia p y2 children v2)).
    { intros [u1 u2 Hu|]; cbn; [by related | constructor]. }
    clear Hw. revert v1 v2 Hv.
    induction IH as [|c cs Hc _ IHcs]; intros v1 v2 Hv; cbn; [by constructor|].
    destruct (Hc _ _ Hv) as [[b1 u1] [b2 u2] [Hb Hu]|]; cbn in *; [|constructor].
    subst b2. destruct b1; [by apply IHcs | by constructor]. }
  induction nodes as [|n ns IH]; intros w1 w2 Hw; cbn; [by constructor|].
  destruct (Hnode n _ _ Hw) as [[b1 u1] [b2 u2] [Hb Hu]|]; cbn in *; [|constructor].
  subst b2. destruct b1; [by apply IH | by constructor].
Qed.

(** ** Consumers that never break *)

Lemma visitNode_accepting {C} p (yield : ParsedMedia → C → bool * C) node w b w' :
  accepting yield → visitNode p yield node w = Some (b, w') → b = true.
Proof.
  intros Hacc. unfold visitNode. cbn. destruct (isMediaTag p (Tag node)); [|naive_solver].
  destruct (parseMediaNode p node (mediaIndex w)) as [[item []]|]; cbn; [|naive_solver..].
  specialize (Hacc item (sink w)). destruct (yield item (sink w)) as [[] c]; naive_solver.
Qed.

Lemma visitAll_app {C} p (yield : ParsedMedia → C → bool * C) l1 l2 w :
  visitAll p yield (l1 ++ l2) w = visitAll p yield l1 w ≫= visitAll p yield l2.
Proof.
  revert w. induction l1 as [|n l1 IH]; intros w; cbn; [done|].
  destruct (visitNode p yield n w) as [[b w1]|]; cbn; [apply IH | done].
Qed.

(** With a consumer that never breaks, the recursive traversal is the
    run of the loop iterations over the nodes in document order. *)
Lemma walk_preorder {C} p (yield : ParsedMedia → C → bool * C) :
  accepting yield →
  ∀ nodes w, walkNodesForMedia p yield nodes w = visitAll p yield (preorder nodes) w.
Proof.
  intros Hacc.
  assert (Hnode : ∀ node w,
    walkNode p yield node w = (λ w, (true, w)) <$> visitAll p yield (preorderNode node) w).
  { induction node as [tag attrs children IH] using ContentNode_tree_ind.
    intros w. rewrite walkNode_eq. cbn [Children preorderNode visitAll].
    destruct (visitNode p yield _ w) as [[b w1]|] eqn:Hv; cbn; [|done].
    apply visitNode_accepting in Hv as ->; [|done].
    cut (walkNodesForMedia p yield children w1
         = visitAll p yield (flat_map preorderNode children) w1).
    { intros ->. by destruct (visitAll _ _ _ _). }
    revert w1. induction IH as [|c cs Hc _ IHcs]; intros w1; cbn; [done|].
    rewrite visitAll_app, Hc. destruct (visitAll p yield (preorderNode c) w1); cbn; [|done].
    apply IHcs. }
  induction nodes as [|n ns IH]; intros w; cbn; [done|].
  unfold preorder in *. rewrite visitAll_app, Hnode.
  destruct (visitAll p yield (preorderNode n) w); cbn; [apply IH | done].
Qed.

Lemma visitAll_visited {C} p (yield : ParsedMedia → C → bool * C) flat w w' :
  accepting yield → visitAll p yield flat w = Some w' →
  visited (trace w') = visited (trace w) ++ flat.
Proof.
  intros Hacc. revert w. induction flat as [|n flat IH]; intros w; cbn.
  - intros [= <-]. by rewrite app_nil_r.
  - destruct (visitNode p yield n w) as [[b w1]|] eqn:Hv; cbn; [|done].
    intros Hrest. apply IH in Hrest as ->.
    cut (visited (trace w1) = visited (trace w) ++ [n]).
    { intros ->. by rewrite <- app_assoc. }
    revert Hv. unfold visitNode, visited. cbn.
    destruct (isMediaTag p (Tag n)); cbn.
    + destruct (parseMediaNode p n (mediaIndex w)) as [[item []]|]; cbn; [| |done].
      * destruct (yield item (sink w)) as [[] c]; intros [= <- <-]; cbn;
          rewrite !omap_app; cbn; by rewrite app_nil_r.
      * intros [= <- <-]. cbn. by rewrite omap_app.
    + intros [= <- <-]. cbn. by rewrite omap_app.
Qed.

Lemma visitAll_items p flat w :
  sink <$> visitAll p appendParsed flat w
  = (sink w ++.) <$> itemsInOrder p flat (mediaIndex w).
Proof.
  revert w. induction flat as [|n flat IH]; intros w; cbn.
  - by rewrite app_nil_r.
  - unfold visitNode. cbn. destruct (isMediaTag p (Tag n)); cbn; [|apply (IH (mkWalk _ _ _))].
    destruct (parseMediaNode p n (mediaIndex w)) as [[item []]|]; cbn; [| |done].
    + rewrite (IH (mkWalk _ _ _)). cbn.
      destruct (itemsInOrder p flat (S (mediaIndex w))); cbn; [|done].
      by rewrite <- app_assoc.
    + apply (IH (mkWalk _ _ _)).
Qed.

(** [ExtractMedia] keeps the [MediaItem] of what [ExtractMediaDetailed]
    keeps. *)
Lemma ExtractMedia_detailed p content :
  ExtractMedia p content = fmap (M:=list) Item <$> ExtractMediaDetailed p content.
Proof.
  unfold ExtractMedia, ExtractMediaDetailed, iterateMediaItems.
  pose proof (walk_simulation p appendParsed appendItem (λ l1 l2, l2 = Item <$> l1)) as Hsim.
  destruct (Hsim) with (nodes := Nodes content)
    (w1 := mkWalk 0 ([] : list ParsedMedia) []) (w2 := mkWalk 0 ([] : list MediaItem) [])
    as [w1 w2 (_ & _ & Hs)|]; cbn; [| |by f_equal|done].
  - intros item c1 c2 _ ->. cbn. by rewrite fmap_app.
  - by repeat split.
Qed.

Lemma visitNode_dense p node w b w' :
  dense w → visitNode p appendParsed node w = Some (b, w') → dense w'.
Proof.
  intros (Hidx & Hy & Hnames). unfold visitNode, dense, yielded. cbn.
  destruct (isMediaTag p (Tag node)); cbn.
  - destruct (parseMediaNode p node (mediaIndex w)) as [[item []]|] eqn:Hp; cbn; [| |done].
    + intros [= <- <-]. cbn [sink mediaIndex trace].
      apply parseMediaNode_ok in Hp as (_ & Hi & _ & _ & Hname).
      rewrite fmap_app, Hidx, seq_S, !omap_app. cbn. rewrite Hi, app_nil_r.
      split_and!; [done | by f_equal |].
      apply Forall_app. split; [done|]. apply Forall_singleton. by rewrite Hi.
    + intros [= <- <-]. cbn. rewrite omap_app. cbn. by rewrite app_nil_r.
  - intros [= <- <-]. cbn. rewrite omap_app. cbn. by rewrite app_nil_r.
Qed.

(** C2. The items extracted from any content tree carry the indices
    0, 1, ..., n-1 in the order they are emitted, and the filename of the
    i-th starts with [i] and an underscore: the shared counter moves only
    when an item is yielded, so it equals the number of items yielded.
    The extraction returns unless the parser was configured with an empty
    file extension. *)
Theorem dense_indices p content :
  match iterateMediaItems p appendParsed (Nodes content) [] with
  | Some w =>
      ExtractMediaDetailed p content = Some (sink w) ∧
      ExtractMedia p content = Some (Item <$> sink w) ∧
      yielded (trace w) = sink w ∧
      mediaIndex w = length (sink w) ∧
      NodeIndex <$> sink w = seq 0 (length (sink w)) ∧
      ∀ i item, sink w !! i = Some item →
        NodeIndex item = i ∧
        ∃ base, Filename (Item item) = pretty i +:+ "_" +:+ base
  | None => "" ∈ fileExtensions p
  end.
Proof.
  destruct (iterateMediaItems _ _ _ _) as [w|] eqn:Hw; [|by eapply walk_None].
  assert (Hd : dense w).
  { eapply (walk_invariant p appendParsed dense); [apply visitNode_dense| |exact Hw].
    by repeat split. }
  destruct Hd as (Hidx & Hy & Hnames).
  assert (Hlen : mediaIndex w = length (sink w)).
  { by rewrite <- (length_fmap NodeIndex), Hidx, length_seq. }
  assert (Hdet : ExtractMediaDetailed p content = Some (sink w)).
  { unfold ExtractMediaDetailed. by rewrite Hw. }
  split_and!; [done | by rewrite ExtractMedia_detailed, Hdet | done | done
               | by rewrite <- Hlen |].
  intros i item Hi.
  assert (Hn : NodeIndex item = i).
  { assert (Hl : (NodeIndex <$> sink w) !! i = Some (NodeIndex item))
      by (by rewrite list_lookup_fmap, Hi).
    rewrite Hidx in Hl. apply lookup_seq in Hl as [? _]. cbn in *. congruence. }
  split; [done|]. rewrite <- Hn.
  eapply Forall_lookup_1 in Hnames; [|exact Hi]. done.
Qed.

(** C6. The extraction of any content tree is the left-to-right pass
    over its nodes in document order (an element, then its children with
    all their descendants, then its following sibling): the nodes are
    visited in that order and the accepted ones give the items, in that
    order. *)
Theorem extraction_follows_document_order p content :
  ExtractMediaDetailed p content = itemsInOrder p (preorder (Nodes content)) 0 ∧
  ExtractMedia p content = fmap (M:=list) Item <$> itemsInOrder p (preorder (Nodes content)) 0 ∧
  match iterateMediaItems p appendParsed (Nodes content) [] with
  | Some w => visited (trace w) = preorder (Nodes content)
  | None => "" ∈ fileExtensions p
  end.
Proof.
  assert (Hacc : accepting appendParsed) by done.
  assert (Hdet : ExtractMediaDetailed p content
                 = itemsInOrder p (preorder (Nodes content)) 0).
  { unfold ExtractMediaDetailed, iterateMediaItems.
    rewrite (walk_preorder p appendParsed Hacc), visitAll_items. cbn.
    by destruct (itemsInOrder _ _ _). }
  split_and!; [done | by rewrite ExtractMedia_detailed, Hdet |].
  destruct (iterateMediaItems _ _ _ _) as [w|] eqn:Hw; [|by eapply walk_None].
  unfold iterateMediaItems in Hw. rewrite (walk_preorder p appendParsed Hacc) in Hw.
  by apply visitAll_visited in Hw.
Qed.

(** ** [ExtractWithStats] *)

Lemma visitNode_yields_url {C} p (yield : ParsedMedia → C → bool * C) node w b w' :
  Forall (λ item, URL (Item item) ≠ "") (yielded (trace w)) →
  visitNode p yield node w = Some (b, w') →
  Forall (λ item, URL (Item item) ≠ "") (yielded (trace w')).
Proof.
  intros Hw. unfold visitNode, yielded. cbn.
  assert (Hv : Forall (λ item, URL (Item item) ≠ "")
                 (yielded (trace w ++ [EvVisit node]))).
  { unfold yielded. rewrite omap_app. cbn. by rewrite app_nil_r. }
  destruct (isMediaTag p (Tag node)); cbn; [|by intros [= <- <-]].
  destruct (parseMediaNode p node (mediaIndex w)) as [[item []]|] eqn:Hp; cbn;
    [| by intros [= <- <-] | done].
  apply parseMediaNode_ok in Hp as (Hurl & _).
  destruct (yield item (sink w)) as [[] c]; intros [= <- <-]; cbn;
    rewrite omap_app; apply Forall_app; split; try done; cbn; by apply Forall_singleton.
Qed.

(** C10. For any content tree [ExtractWithStats] returns the list of
    items [ExtractMedia] returns, and panics when it does: no item the
    walker yields has an empty URL, so the branch that counts invalid
    media and records an error is never taken. *)
Theorem ExtractWithStats_same_items p content :
  fst <$> ExtractWithStats p content = ExtractMedia p content ∧
  match iterateMediaItems p statsBody (Nodes content)
          (mkExtraction (mkStats 0 0 0 0 0 []) [] ∅) with
  | Some w =>
      Forall (λ item, URL (Item item) ≠ "") (yielded (trace w)) ∧
      InvalidMedia (stats (sink w)) = 0 ∧ Errors (stats (sink w)) = []
  | None => "" ∈ fileExtensions p
  end.
Proof.
  unfold ExtractWithStats, ExtractMedia, iterateMediaItems.
  set (w0 := mkWalk 0 (mkExtraction (mkStats 0 0 0 0 0 []) [] ∅) []).
  assert (Hrel : option_Forall2 (sameWalk sameItems)
            (walkNodesForMedia p statsBody (Nodes content) w0)
            (walkNodesForMedia p appendItem (Nodes content) (mkWalk 0 [] []))).
  { apply walk_simulation; [|by repeat split].
    intros item x items Hurl (<- & Hinv & Herr). unfold statsBody. cbn.
    apply String.eqb_neq in Hurl. rewrite Hurl. cbn. by repeat split. }
  destruct (walkNodesForMedia p statsBody (Nodes content) w0) as [w1|] eqn:Hrun;
    inversion Hrel as [? w2 (_ & _ & Hs & Hinv & Herr)|]; subst; cbn.
  - split; [by rewrite Hs|]. split; [|done].
    eapply (walk_invariant p statsBody
              (λ w, Forall (λ item, URL (Item item) ≠ "") (yielded (trace w))));
      [apply visitNode_yields_url | | exact Hrun].
    by constructor.
  - split; [done|]. by eapply walk_None.
Qed.

(** ** Early termination *)

(** C3. A consumer that wants one item, on
    [<figure><img a></figure><img b>]: it refuses further items inside
    the recursive call for the children of [figure]; that call returns,
    and the loop over the top level goes on: it visits [img b] and calls
    [yield] once more, with the index the refused item had.  (Under a
    [for ... range] loop that second call is a run-time panic.) *)
Theorem walker_continues_after_refusal :
  (afterRefusal ∘ trace) <$>
    iterateMediaItems New (takeItems 1) Examples.figureThenImage []
  = Some [EvVisit (Examples.img "/file/b.jpg"); EvYield Examples.parsedB true].
Proof. vm_compute. reflexivity. Qed.

(** ** Deduplication *)

Lemma DeleteFunc_sublist {A S} (del : A → S → bool * S) s st :
  DeleteFunc del s st `sublist_of` s.
Proof.
  revert st. induction s as [|v rest IH]; intros st; cbn; [done|].
  destruct (del v st) as [[] st']; [apply sublist_cons | apply sublist_skip]; apply IH.
Qed.

Lemma seenAre_snoc seen pre item :
  seenAre seen pre →
  seenAre (if default false (seen !! URL item) then seen else <[URL item := true]> seen)
          (pre ++ [item]).
Proof.
  intros Hseen u. rewrite fmap_app, elem_of_app. cbn. rewrite list_elem_of_singleton.
  pose proof (Hseen u) as Hu. pose proof (Hseen (URL item)) as Hi.
  destruct (default false (seen !! URL item)) eqn:Hitem.
  - split; [intros ?; left; by apply Hu | intros [?| ->]; [by apply Hu | done]].
  - destruct (decide (u = URL item)) as [->|Hne].
    + rewrite lookup_insert_eq. cbn. split; [by right | done].
    + rewrite lookup_insert_ne by done.
      split; [intros ?; left; by apply Hu | intros [?|?]; [by apply Hu | done]].
Qed.

Lemma DeleteFunc_seenBefore_cons x rest seen :
  DeleteFunc seenBefore (x :: rest) seen
  = if default false (seen !! URL x) then DeleteFunc seenBefore rest seen
    else x :: DeleteFunc seenBefore rest (<[URL x := true]> seen).
Proof. cbn. unfold seenBefore at 1. by destruct (default false (seen !! URL x)). Qed.

Lemma dedup_first_occurrences rest pre seen :
  seenAre seen pre →
  DeleteFunc seenBefore rest seen
  = snd <$> filter (λ ix : nat * MediaItem, URL ix.2 ∉ URL <$> take ix.1 (pre ++ rest))
                   (imap (λ i x, (length pre + i, x)) rest).
Proof.
  revert pre seen. induction rest as [|x rest IH]; intros pre seen Hseen; [done|].
  pose proof (seenAre_snoc seen pre x Hseen) as Hnext.
  rewrite DeleteFunc_seenBefore_cons. cbn [imap]. rewrite filter_cons. cbn [fst snd].
  rewrite Nat.add_0_r, take_app_length.
  assert (Htail : ∀ seen', seenAre seen' (pre ++ [x]) →
    DeleteFunc seenBefore rest seen'
    = snd <$> filter (λ ix : nat * MediaItem,
                        URL ix.2 ∉ URL <$> take ix.1 (pre ++ x :: rest))
                     (imap ((λ i y, (length pre + i, y)) ∘ S) rest)).
  { intros seen' Hs. rewrite (IH (pre ++ [x]) seen' Hs), <- app_assoc. cbn.
    do 2 f_equal. apply imap_ext. intros i y _. cbn. rewrite length_app. cbn.
    f_equal. lia. }
  destruct (default false (seen !! URL x)) eqn:Hx.
  - rewrite decide_False; [by apply Htail|].
    intros Hnot. apply Hnot. by apply Hseen.
  - rewrite decide_True; [cbn; f_equal; by apply Htail|].
    intros Hin. apply Hseen in Hin. congruence.
Qed.

Lemma dedup_urls rest seen :
  NoDup (URL <$> DeleteFunc seenBefore rest seen) ∧
  ∀ u, u ∈ URL <$> DeleteFunc seenBefore rest seen
       ↔ u ∈ URL <$> rest ∧ default false (seen !! u) = false.
Proof.
  revert seen. induction rest as [|x rest IH]; intros seen.
  - cbn. split; [constructor|]. intros u. rewrite elem_of_nil. naive_solver.
  - rewrite DeleteFunc_seenBefore_cons. rewrite fmap_cons.
    destruct (default false (seen !! URL x)) eqn:Hx.
    + destruct (IH seen) as [Hnd Hin]. split; [done|].
      intros u. rewrite Hin, elem_of_cons. split; [naive_solver|].
      intros [[->|?] Hu]; [congruence | done].
    + destruct (IH (<[URL x := true]> seen)) as [Hnd Hin]. rewrite fmap_cons. split.
      * constructor; [|done]. rewrite Hin, lookup_insert_eq. naive_solver.
      * intros u. rewrite !elem_of_cons, Hin.
        destruct (decide (u = URL x)) as [->|Hne].
        -- rewrite lookup_insert_eq. naive_solver.
        -- rewrite lookup_insert_ne by done. naive_solver.
Qed.

(** C7. Deduplication keeps an item exactly when its URL does not occur
    at an earlier position of the list: the first occurrence of every
    URL stays, the later ones go.  The items kept are the ones given
    (so with their filename), in the order given, and every URL of the
    list is kept once. *)
Theorem DeduplicateURLs_first_occurrences items :
  DeduplicateURLs items = firstOccurrences items ∧
  DeduplicateURLs items `sublist_of` items ∧
  NoDup (URL <$> DeduplicateURLs items) ∧
  ∀ u, u ∈ URL <$> DeduplicateURLs items ↔ u ∈ URL <$> items.
Proof.
  unfold DeduplicateURLs. split_and!.
  - rewrite (dedup_first_occurrences items [] ∅); [done|].
    intros u. rewrite lookup_empty. cbn. rewrite elem_of_nil. naive_solver.
  - apply DeleteFunc_sublist.
  - apply dedup_urls.
  - intros u. destruct (dedup_urls items ∅) as [_ ->]. rewrite lookup_empty. naive_solver.
Qed.

End ParserProperties.

(** * Properties of the downloader *)

Section DownloaderProperties.
Import Downloader GoStrings.
Context `{GoStdlib}.

(** ** One attempt *)

Lemma ctxDone_world env w :
  (ctxDone env w).2 = mkWorld (files w) (S (polls w)) (attempts w) (effects w).
Proof. unfold ctxDone. by repeat case_match. Qed.

(** The copy touches no file but its destination, starts no attempt and
    waits for nothing. *)
Lemma copyWithContext_world env path body written w :
  let w' := (copyWithContext env path body written w).2 in
  delete path (files w') = delete path (files w) ∧
  attempts w' = attempts w ∧ effects w' = effects w.
Proof.
  revert written w. induction body as [|chunk rest IH]; intros written w; cbn.
  - pose proof (ctxDone_world env w) as Hw.
    destruct (ctxDone env w) as [[c|] w1]; cbn in *; by subst.
  - pose proof (ctxDone_world env w) as Hw.
    destruct (ctxDone env w) as [[c|] w1]; cbn in *; subst; [done|].
    repeat case_match; cbn; try done.
    all: try match goal with
             | IH' : ∀ written w, _ |- context [copyWithContext _ _ _ ?wr ?ww] =>
                 destruct (IH' wr ww) as (Hf & Ha & He); rewrite Hf, Ha, He; cbn
             end.
    all: by rewrite ?delete_insert_eq.
Qed.

Lemma waitsOf_app l1 l2 : waitsOf (l1 ++ l2) = waitsOf l1 ++ waitsOf l2.
Proof. apply omap_app. Qed.

(** What every attempt does, however it ends: it answers for its own
    item, counts as one attempt, waits for nothing, and on failure
    reports no size and leaves no file it created. *)
Lemma downloadFileWithContext_facts env d item w :
  let path := filepath_Join (outputDir d) (Filename item) in
  let out := downloadFileWithContext env d item w in
  Item out.1 = item ∧ attempts out.2 = S (attempts w) ∧
  waitsOf (effects out.2) = waitsOf (effects w) ∧ cleanFailure path w out.
Proof.
  cbn zeta. unfold downloadFileWithContext, cleanFailure.
  set (path := filepath_Join (outputDir d) (Filename item)).
  set (x := exchange env (attempts w) (buildURL d (URL item))).
  cbn [files logEffect setFiles polls attempts effects].
  assert (Hlog : ∀ e, match e with EfWait _ => False | _ => True end →
            waitsOf (effects w ++ [e]) = waitsOf (effects w)).
  { intros e He. rewrite waitsOf_app. destruct e; cbn; try done; by rewrite app_nil_r. }
  assert (Hlog2 : ∀ e1 e2, match e1 with EfWait _ => False | _ => True end →
            match e2 with EfWait _ => False | _ => True end →
            waitsOf ((effects w ++ [e1]) ++ [e2]) = waitsOf (effects w)).
  { intros e1 e2 H1 H2. rewrite waitsOf_app, Hlog by done.
    destruct e2; cbn; try done; by rewrite app_nil_r. }
  assert (Htransfer :
    let out :=
      match newRequestErr x with
      | Some e => (mkResult item 0 (Some (ErrWrap "failed to create request: " e)) false,
                   mkWorld (files w) (polls w) (S (attempts w)) (effects w ++ [EfAttempt]))
      | None =>
          match response x with
          | inl e => (mkResult item 0 (Some (ErrWrap "HTTP request failed: " e)) false,
                      mkWorld (files w) (polls w) (S (attempts w))
                        ((effects w ++ [EfAttempt]) ++ [EfRequest (buildURL d (URL item))]))
          | inr (status, body) =>
              if bool_decide (status ≠ 200)%Z
              then (mkResult item 0 (Some (ErrText ("HTTP " +:+ pretty status))) false,
                    mkWorld (files w) (polls w) (S (attempts w))
                      ((effects w ++ [EfAttempt]) ++ [EfRequest (buildURL d (URL item))]))
              else
                match createErr x with
                | Some e => (mkResult item 0 (Some (ErrWrap "failed to create file: " e)) false,
                             mkWorld (files w) (polls w) (S (attempts w))
                               ((effects w ++ [EfAttempt])
                                  ++ [EfRequest (buildURL d (URL item))]))
                | None =>
                    let '((size, err), w) :=
                      copyWithContext env path body 0
                        (mkWorld (<[path := 0%Z]> (files w)) (polls w) (S (attempts w))
                           (((effects w ++ [EfAttempt])
                               ++ [EfRequest (buildURL d (URL item))]) ++ [EfCreate path])) in
                    match err with
                    | Some e =>
                        (mkResult item 0 (Some (ErrWrap "failed to copy file: " e)) false,
                         mkWorld (delete path (files w)) (polls w) (attempts w)
                           (effects w ++ [EfRemove path]))
                    | None => (mkResult item size None false, w)
                    end
                end
          end
      end in
    Item out.1 = item ∧ attempts out.2 = S (attempts w) ∧
    waitsOf (effects out.2) = waitsOf (effects w) ∧
    match Error out.1 with
    | Some _ =>
        Size out.1 = 0%Z ∧ Skipped out.1 = false ∧
        (files out.2 = files w ∨ files out.2 = delete path (files w))
    | None => True
    end).
  { cbn zeta. destruct (newRequestErr x); cbn.
    { split_and!; try done; [by apply Hlog | by left]. }
    destruct (response x) as [e|[status body]]; cbn.
    { split_and!; try done; [by apply Hlog2 | by left]. }
    case_bool_decide; cbn.
    { split_and!; try done; [by apply Hlog2 | by left]. }
    destruct (createErr x); cbn.
    { split_and!; try done; [by apply Hlog2 | by left]. }
    match goal with
    | |- context [copyWithContext env path body 0%Z ?w0] =>
        pose proof (copyWithContext_world env path body 0 w0) as (Hf & Ha & He);
        destruct (copyWithContext env path body 0 w0) as [[size err] w2]
    end.
    cbn in Hf, Ha, He. rewrite delete_insert_eq in Hf.
    destruct err; cbn.
    - rewrite Hf, Ha, He, waitsOf_app. cbn. rewrite app_nil_r.
      split_and!; try done; [|by right].
      rewrite waitsOf_app. cbn. rewrite app_nil_r. by apply Hlog2.
    - rewrite Ha, He, waitsOf_app. cbn. rewrite app_nil_r. split_and!; try done.
      by apply Hlog2. }
  cbn zeta in Htransfer.
  destruct (files w !! path) as [size|]; [|exact Htransfer].
  case_bool_decide; [|exact Htransfer].
  cbn. split_and!; try done. by apply Hlog.
Qed.

Lemma downloadFileWithContext_skip env d item w size :
  files w !! filepath_Join (outputDir d) (Filename item) = Some size → (0 < size)%Z →
  downloadFileWithContext env d item w
  = (mkResult item size None true,
     mkWorld (files w) (polls w) (S (attempts w)) (effects w ++ [EfAttempt])).
Proof.
  intros Hfile Hsize. unfold downloadFileWithContext. cbn [files logEffect].
  rewrite Hfile. by rewrite bool_decide_eq_true_2.
Qed.

(** ** One job *)




(** C5, as amended. With [retries >= 0], a job whose destination holds a
    file of positive size ends at the top of the first loop iteration:
    if the context has not ended, the attempt finds the file and the
    result is the skip with the file's size; if it has, the result is the
    context's error.  Either way no HTTP request is issued, nothing is
    waited for and no second attempt starts. *)
Theorem existing_file_is_skipped env d item w size :
  (0 ≤ retries d)%Z →
  files w !! filepath_Join (outputDir d) (Filename item) = Some size →
  (0 < size)%Z →
  downloadFileWithRetryAndContext env d item w =
    match (ctxDone env w).1 with
    | None => (mkResult item size None true,
               mkWorld (files w) (S (polls w)) (S (attempts w)) (effects w ++ [EfAttempt]))
    | Some c => (mkResult item 0 (Some (causeErr c)) false,
                 mkWorld (files w) (S (polls w)) (attempts w) (effects w))
    end.
Proof.
  intros Hretries Hfile Hsize. unfold downloadFileWithRetryAndContext.
  destruct (Z.to_nat (retries d + 1)) as [|n] eqn:Hn; [lia|]. cbn [retryLoop].
  pose proof (ctxDone_world env w) as Hw1.
  destruct (ctxDone env w) as [[c|] w1]; cbn in Hw1 |- *; subst w1; [done|].
  by rewrite (downloadFileWithContext_skip env d item _ size).
Qed.

(** ** The retry loop when the context never ends *)

Lemma ctxDone_never env w :
  ctxEnds env = None →
  ctxDone env w = (None, mkWorld (files w) (S (polls w)) (attempts w) (effects w)).
Proof. unfold ctxDone. by intros ->. Qed.

Lemma nothingToSkip_after path w w' :
  files w' = files w ∨ files w' = delete path (files w) →
  nothingToSkip path w → nothingToSkip path w'.
Proof.
  unfold nothingToSkip. intros [-> | ->]; [done|]. by rewrite lookup_delete_eq.
Qed.

Lemma waits_shift (a : Z) (n : nat) :
  (a + 1)%Z :: ((λ i : nat, (a + 1 + Z.of_nat i)%Z) <$> seq 1 n)
  = (λ i : nat, (a + Z.of_nat i)%Z) <$> seq 1 (S n).
Proof.
  cbn [seq]. rewrite fmap_cons. replace (a + Z.of_nat 1)%Z with (a + 1)%Z by lia.
  f_equal. rewrite <- (fmap_S_seq 1), <- list_fmap_compose. apply list_fmap_ext.
  intros _ i _. cbn. lia.
Qed.

(** A failed attempt, as the loop sees it. *)
Lemma failed_attempt notFound env d item w :
  failsWith notFound env d item w →
  nothingToSkip (filepath_Join (outputDir d) (Filename item)) w →
  ∃ r w' e, downloadFileWithContext env d item w = (r, w') ∧
    Error r = Some e ∧ Contains (errorText e) "404" = notFound ∧
    attempts w' = S (attempts w) ∧ waitsOf (effects w') = waitsOf (effects w) ∧
    nothingToSkip (filepath_Join (outputDir d) (Filename item)) w'.
Proof.
  intros (e & He & Hc) Hskip.
  pose proof (downloadFileWithContext_facts env d item w) as (_ & Ha & Hw & Hclean).
  destruct (downloadFileWithContext env d item w) as [r w'] eqn:Hrun. cbn in *.
  exists r, w', e. split_and!; try done.
  unfold cleanFailure in Hclean. cbn in Hclean. rewrite He in Hclean.
  destruct Hclean as (_ & _ & Hfiles). by eapply nothingToSkip_after.
Qed.

(** Every attempt fails, with an error the loop does not take for a
    not-found: all [remaining] iterations run, one attempt each, with a
    wait of [attempt + 1] after each but the last. *)
Lemma retryLoop_all_fail env d item :
  ctxEnds env = None →
  (∀ w, nothingToSkip (filepath_Join (outputDir d) (Filename item)) w →
        failsWith false env d item w) →
  ∀ remaining attempt errors w,
    (attempt + Z.of_nat remaining = retries d + 1)%Z →
    nothingToSkip (filepath_Join (outputDir d) (Filename item)) w →
    let out := retryLoop env d remaining attempt errors item w in
    attempts out.2 = attempts w + remaining ∧
    waitsOf (effects out.2)
    = waitsOf (effects w)
      ++ ((λ i : nat, (attempt + Z.of_nat i)%Z) <$> seq 1 (pred remaining)) ∧
    ∃ errs, Error out.1 = Some (ErrMulti (errors ++ errs)) ∧ length errs = remaining.
Proof.
  intros Hctx Hfail. induction remaining as [|r IH]; intros attempt errors w Hcount Hskip.
  { cbn. split_and!; [lia | by rewrite app_nil_r |]. exists []. by rewrite app_nil_r. }
  cbn [retryLoop]. rewrite (ctxDone_never env w Hctx).
  set (w1 := mkWorld (files w) (S (polls w)) (attempts w) (effects w)).
  destruct (failed_attempt false env d item w1) as (res & w2 & e & -> & -> & -> & Ha & Hw & Hs2);
    [by apply Hfail | done |].
  cbn [AddError]. cbn in Ha, Hw.
  destruct r as [|r].
  - rewrite bool_decide_eq_false_2 by lia. cbn.
    split_and!; [lia | by rewrite Hw, app_nil_r |].
    eexists [_]. split; reflexivity.
  - rewrite bool_decide_eq_true_2 by lia.
    rewrite (ctxDone_never env _ Hctx). cbn [logEffect files polls attempts effects].
    match goal with
    | |- context [retryLoop env d (S r) ?a ?es item ?w3] =>
        destruct (IH a es w3) as (Hatt & Hwaits & errs & Herr & Hlen); [lia | done |]
    end.
    cbn zeta. rewrite Hatt, Hwaits, Herr. cbn [attempts effects pred].
    split_and!; [lia | |].
    + rewrite waitsOf_app, Hw. cbn. rewrite <- app_assoc. f_equal. cbn [app].
      apply waits_shift.
    + eexists (_ :: errs). rewrite <- app_assoc. cbn. split; [done | by rewrite Hlen].
Qed.

(** The first [k] attempts fail with errors the loop does not take for a
    not-found, the next one with an error it does: the job ends after
    [k + 1] attempts and [k] waits, whatever budget is left. *)
Lemma retryLoop_not_found env d item :
  ctxEnds env = None →
  ∀ k remaining attempt errors w,
    k < remaining →
    (attempt + Z.of_nat remaining = retries d + 1)%Z →
    nothingToSkip (filepath_Join (outputDir d) (Filename item)) w →
    (∀ w', nothingToSkip (filepath_Join (outputDir d) (Filename item)) w' →
           attempts w' < attempts w + k → failsWith false env d item w') →
    (∀ w', nothingToSkip (filepath_Join (outputDir d) (Filename item)) w' →
           attempts w' = attempts w + k → failsWith true env d item w') →
    let out := retryLoop env d remaining attempt errors item w in
    attempts out.2 = attempts w + S k ∧
    waitsOf (effects out.2)
    = waitsOf (effects w) ++ ((λ i : nat, (attempt + Z.of_nat i)%Z) <$> seq 1 k) ∧
    ∃ errs, Error out.1 = Some (ErrMulti (errors ++ errs)) ∧ length errs = S k.
Proof.
  intros Hctx. induction k as [|k IH];
    intros remaining attempt errors w Hlt Hcount Hskip Hfail Hlast;
    (destruct remaining as [|r]; [lia|]); cbn [retryLoop];
    rewrite (ctxDone_never env w Hctx);
    set (w1 := mkWorld (files w) (S (polls w)) (attempts w) (effects w)).
  - destruct (failed_attempt true env d item w1)
      as (res & w2 & e & -> & -> & -> & Ha & Hw & Hs2);
      [apply Hlast; [done | cbn; lia] | done |].
    cbn in Ha, Hw |- *. split_and!; [lia | by rewrite Hw, app_nil_r |].
    eexists [_]. done.
  - destruct (failed_attempt false env d item w1)
      as (res & w2 & e & -> & -> & -> & Ha & Hw & Hs2);
      [apply Hfail; [done | cbn; lia] | done |].
    cbn in Ha, Hw. cbn [AddError].
    rewrite bool_decide_eq_true_2 by lia.
    rewrite (ctxDone_never env _ Hctx). cbn [logEffect files polls attempts effects].
    match goal with
    | |- context [retryLoop env d r ?a ?es item ?w3] =>
        destruct (IH r a es w3) as (Hatt & Hwaits & errs & Herr & Hlen);
        [lia | lia | done
         | intros w' ? ?; apply Hfail; [done | cbn in *; lia]
         | intros w' ? ?; apply Hlast; [done | cbn in *; lia] |]
    end.
    cbn zeta. rewrite Hatt, Hwaits, Herr. cbn [attempts effects].
    split_and!; [lia | |].
    + rewrite waitsOf_app, Hw. cbn. rewrite <- app_assoc. f_equal. cbn [app].
      apply waits_shift.
    + eexists (_ :: errs). rewrite <- app_assoc. cbn. split; [done | by rewrite Hlen].
Qed.

(** A job whose attempts all fail with errors whose text has no 404 in
    it, while the context does not end: [retries + 1] attempts, and waits
    of 1, 2, ..., [retries] between them. *)
Lemma all_attempts_fail env d item w :
  ctxEnds env = None → (0 ≤ retries d)%Z →
  nothingToSkip (filepath_Join (outputDir d) (Filename item)) w →
  (∀ w, nothingToSkip (filepath_Join (outputDir d) (Filename item)) w →
        failsWith false env d item w) →
  let out := downloadFileWithRetryAndContext env d item w in
  attempts out.2 = attempts w + Z.to_nat (retries d + 1) ∧
  waitsOf (effects out.2)
  = waitsOf (effects w) ++ (Z.of_nat <$> seq 1 (Z.to_nat (retries d))).
Proof.
  intros Hctx Hretries Hskip Hfail. cbn zeta. unfold downloadFileWithRetryAndContext.
  destruct (retryLoop_all_fail env d item Hctx Hfail (Z.to_nat (retries d + 1)) 0 [] w)
    as (Ha & Hw & _); [lia | done |].
  split; [done|]. rewrite Hw. f_equal.
  replace (pred (Z.to_nat (retries d + 1))) with (Z.to_nat (retries d)) by lia.
  apply list_fmap_ext. intros _ i _. lia.
Qed.

(** A job started when the context has ended makes no attempt: its
    result is the context's error. *)
Lemma job_after_context_ended env d item w c :
  (0 ≤ retries d)%Z → (ctxDone env w).1 = Some c →
  downloadFileWithRetryAndContext env d item w
  = (mkResult item 0 (Some (causeErr c)) false,
     mkWorld (files w) (S (polls w)) (attempts w) (effects w)).
Proof.
  intros Hretries Hdone. unfold downloadFileWithRetryAndContext.
  destruct (Z.to_nat (retries d + 1)) as [|n] eqn:Hn; [lia|]. cbn [retryLoop].
  pose proof (ctxDone_world env w) as Hw1.
  destruct (ctxDone env w) as [[c'|] w1]; cbn in *; by simplify_eq.
Qed.

(** ** The collecting loop *)

Lemma wrap64_add a b : wrap64 (wrap64 a + b) = wrap64 (a + b).
Proof.
  unfold wrap64. f_equal.
  replace ((a + 2 ^ 63) mod 2 ^ 64 - 2 ^ 63 + b + 2 ^ 63)%Z
    with ((a + 2 ^ 63) mod 2 ^ 64 + b)%Z by lia.
  rewrite Zplus_mod_idemp_l. f_equal. lia.
Qed.

Lemma collect_step st r :
  Total (collect st r) = Total st ∧
  Successful (collect st r) + Failed (collect st r) + SkippedFiles (collect st r)
  = S (Successful st + Failed st + SkippedFiles st) ∧
  (Successful st ≤ Successful (collect st r))%nat ∧
  (Failed st ≤ Failed (collect st r))%nat ∧
  (SkippedFiles st ≤ SkippedFiles (collect st r))%nat ∧
  TotalSize (collect st r)
  = if isSuccess r then add64 (TotalSize st) (Size r) else TotalSize st.
Proof.
  unfold collect, isSuccess. destruct (Error r); [|destruct (Skipped r)]; cbn;
    split_and!; try done; lia.
Qed.

Lemma drain_counts st rs :
  Total (drain st rs) = Total st ∧
  Successful (drain st rs) + Failed (drain st rs) + SkippedFiles (drain st rs)
  = Successful st + Failed st + SkippedFiles st + length rs.
Proof.
  revert st. induction rs as [|r rs IH]; intros st; [cbn; split; [done|lia]|].
  change (drain st (r :: rs)) with (drain (collect st r) rs). cbn [length].
  destruct (IH (collect st r)) as [-> ->].
  destruct (collect_step st r) as (-> & -> & _). split; [done|lia].
Qed.

Lemma drain_size st rs t :
  TotalSize st = wrap64 t → TotalSize (drain st rs) = wrap64 (t + successBytes rs).
Proof.
  revert st t. induction rs as [|r rs IH]; intros st t Ht.
  - cbn. by rewrite Z.add_0_r.
  - change (drain st (r :: rs)) with (drain (collect st r) rs). cbn [successBytes foldr].
    fold (successBytes rs).
    destruct (collect_step st r) as (_ & _ & _ & _ & _ & Hsize).
    destruct (isSuccess r).
    + rewrite (IH (collect st r) (t + Size r)%Z); [f_equal; lia|].
      rewrite Hsize, Ht. apply wrap64_add.
    + apply IH. by rewrite Hsize.
Qed.

(** ** The worker pool *)

Lemma held_insert ws i x y :
  ws !! i = Some x →
  ∃ before after, held ws = before ++ heldBy x ++ after ∧
                  held (<[i := y]> ws) = before ++ heldBy y ++ after.
Proof.
  intros Hi. exists (held (take i ws)), (held (drop (S i) ws)).
  assert (Hlt : i < length ws) by (by eapply lookup_lt_Some).
  split.
  - rewrite <- (take_drop_middle ws i x Hi) at 1. unfold held.
    rewrite bind_app, bind_cons. done.
  - rewrite insert_take_drop by done. unfold held. rewrite bind_app, bind_cons. done.
Qed.


Local Arguments held : simpl never.

(** A step loses a job at most, and loses none while the context has
    not ended. *)
Lemma exec_inFlight a s s' :
  exec a s = Some s' →
  inFlight s' ⊆+ inFlight s ∧ (cancelled s' = false → inFlight s' ≡ₚ inFlight s).
Proof.
  unfold inFlight.
  destruct a as [| | |i r|i|i|i|]; cbn; intros Hexec; repeat case_match; simplify_eq; cbn.
  - split; [done|]. done.
  - rewrite <- !app_assoc. cbn. split; [done|]. done.
  - split; [done|]. done.
  - match goal with Hb : bool_decide _ = true |- _ =>
      apply bool_decide_eq_true in Hb; subst end.
    edestruct (held_insert (workers s) i Idle (Holding r)) as (b & a & -> & ->); [done|].
    cbn.
    split; [apply Permutation_submseteq|intros _]; solve_Permutation.
  - edestruct (held_insert (workers s) i Idle Exited) as (b & a & -> & ->); [done|].
    cbn. split; [done|]. done.
  - edestruct (held_insert (workers s) i (Holding r) Idle) as (b & a & -> & ->); [done|].
    cbn. rewrite fmap_app. cbn.
    split; [apply Permutation_submseteq|intros _]; solve_Permutation.
  - edestruct (held_insert (workers s) i (Holding r) Exited) as (b & a & -> & ->); [done|].
    cbn. split; [solve_submseteq | intros Hc; cbn in Hc; congruence].
  - rewrite fmap_app. cbn. rewrite <- !app_assoc. cbn. split; [done|]. done.
Qed.



Lemma exec_cancelled a s s' :
  exec a s = Some s' → cancelled s' = false → cancelled s = false.
Proof.
  destruct a; cbn; intros Hexec Hc; repeat case_match; simplify_eq;
    cbn [cancelled setWorker] in *; congruence.
Qed.

Lemma Exited_insert (ws : list Worker) (i : nat) (x : Worker) :
  x ≠ Exited → Exited ∈ <[i := x]> ws → Exited ∈ ws.
Proof.
  intros Hx Hin. apply list_elem_of_lookup in Hin as [j Hj].
  destruct (decide (i = j)) as [->|Hne].
  - destruct (decide (j < length ws)) as [Hlt|Hge].
    + rewrite list_lookup_insert_eq in Hj by done. congruence.
    + rewrite list_insert_ge in Hj by lia. by eapply list_elem_of_lookup_2.
  - rewrite list_lookup_insert_ne in Hj by done. by eapply list_elem_of_lookup_2.
Qed.

Lemma start_inv d items : poolInv items (start d items).
Proof.
  unfold poolInv, start, inFlight, held. cbn.
  assert (Hheld : replicate (Z.to_nat (maxWorkers d)) Idle ≫= heldBy = []).
  { induction (Z.to_nat (maxWorkers d)) as [|n IH]; [done|]. cbn. by rewrite IH. }
  rewrite Hheld. cbn. split_and!; try done.
  intros _. split_and!; try done.
  intros Hin. apply elem_of_replicate in Hin as [? _]. done.
Qed.

Lemma exec_inv items a s s' : poolInv items s → exec a s = Some s' → poolInv items s'.
Proof.
  intros (Hsub & Hlive & Hstats & Hdone & Hnote) Hexec.
  pose proof (exec_inFlight a s s' Hexec) as [Hsub' Hperm'].
  pose proof (exec_cancelled a s s' Hexec) as Hcancel.
  unfold poolInv. split_and!.
  - by etrans.
  - intros Hc. specialize (Hcancel Hc). destruct (Hlive Hcancel) as (Hperm & Hsend & Hexit).
    split; [by rewrite (Hperm' Hc)|].
    clear Hperm Hperm' Hsub Hsub' Hlive Hstats Hdone Hnote.
    destruct a as [| | |i r|i|i|i|]; cbn in Hexec; repeat case_match; simplify_eq;
      cbn [toSend senderDone jobs workers cancelled setWorker] in *;
      try congruence;
      repeat match goal with
             | Hb : _ && _ = true |- _ => apply andb_true_iff in Hb as [? ?]
             | Hb : _ || _ = true |- _ => apply orb_true_iff in Hb as [?|?]
             | Hb : bool_decide _ = true |- _ => apply bool_decide_eq_true in Hb
             end;
      try congruence;
      (split; [intros Hsd | intros Hin]);
      try (apply Exited_insert in Hin; [|done]);
      try (destruct (Hexit Hin); split; congruence);
      try (apply Hsend; congruence);
      try congruence; try done.
  - destruct a; cbn in Hexec; repeat case_match; simplify_eq; cbn; try done.
    unfold drain in *. rewrite foldl_app. cbn. by rewrite <- Hstats.
  - destruct a; cbn in Hexec; repeat case_match; simplify_eq; cbn; try done.
    rewrite length_app. cbn. lia.
  - destruct a; cbn in Hexec; repeat case_match; simplify_eq;
      cbn [notified completed setWorker]; try done.
    rewrite Hnote. by rewrite seq_S.
Qed.

Lemma run_inv items schedule s s' :
  poolInv items s → run schedule s = Some s' → poolInv items s'.
Proof.
  revert s. induction schedule as [|a rest IH]; intros s Hinv; cbn.
  - by intros [= <-].
  - destruct (exec a s) as [s1|] eqn:Hexec; cbn; [|done].
    apply IH. by eapply exec_inv.
Qed.







(** C9. The collecting loop adds one to exactly one of Successful,
    Failed and Skipped for each Result it receives, and adds the
    Result's size (as an int64) to TotalSize exactly when the Result is a
    success; a skip's size is not added.  So after any number of Results
    the three counters add up to the number of Results received and
    TotalSize is the int64 sum of the sizes of the successes; and so it
    is in every state of the pool. *)
Theorem aggregator_counts d items schedule st r rs :
  (Successful (collect st r) + Failed (collect st r) + SkippedFiles (collect st r)
   = S (Successful st + Failed st + SkippedFiles st) ∧
   (Successful st ≤ Successful (collect st r))%nat ∧
   (Failed st ≤ Failed (collect st r))%nat ∧
   (SkippedFiles st ≤ SkippedFiles (collect st r))%nat ∧
   TotalSize (collect st r)
   = if isSuccess r then add64 (TotalSize st) (Size r) else TotalSize st) ∧
  (let st' := drain (mkStats (length items) 0 0 0 0 0) rs in
   Successful st' + Failed st' + SkippedFiles st' = length rs ∧
   TotalSize st' = wrap64 (successBytes rs)) ∧
  match run schedule (start d items) with
  | Some s =>
      stats s = drain (mkStats (length items) 0 0 0 0 0) (allResults s) ∧
      completed s = length (allResults s) ∧
      Successful (stats s) + Failed (stats s) + SkippedFiles (stats s) = completed s ∧
      TotalSize (stats s) = wrap64 (successBytes (allResults s))
  | None => True
  end.
Proof.
  split; [|split].
  - destruct (collect_step st r) as (_ & ? & ? & ? & ? & ?). by split_and!.
  - cbn zeta. destruct (drain_counts (mkStats (length items) 0 0 0 0 0) rs) as [_ ->].
    split; [done|]. by rewrite (drain_size _ rs 0).
  - destruct (run schedule (start d items)) as [s|] eqn:Hrun; [|done].
    destruct (run_inv items schedule _ s (start_inv d items) Hrun)
      as (_ & _ & Hstats & Hdone & _).
    split_and!; [done | done | |].
    + rewrite Hstats, Hdone.
      by destruct (drain_counts (mkStats (length items) 0 0 0 0 0) (allResults s)) as [_ ->].
    + rewrite Hstats. by rewrite (drain_size _ (allResults s) 0).
Qed.


End DownloaderProperties.

(** * Concrete runs *)

Section Runs.
Import Parser Downloader Examples.
#[local] Existing Instance plainStdlib.

(** ** The retry loop *)

(** C4. The host refuses every connection and the URL of the job
    contains the digits 404.  The error of the first attempt is a
    transport error, not a not-found response, but its text quotes the
    URL: the loop takes it for a not-found and gives up after one attempt
    with three retries left. *)
Theorem retry_stops_on_404_in_text :
  downloadFileWithRetryAndContext refusedEnv downloader3 item404 emptyWorld
  = (mkResult item404 0
       (Some (ErrMulti
          [ErrWrap "attempt 1: "
             (ErrWrap "HTTP request failed: "
                (ErrText ("Get " +:+ quoted "https://cdn.example/img404.png"
                          +:+ ": dial tcp 203.0.113.7:443: connect: connection refused")))]))
       false,
     mkWorld ∅ 1 1 [EfAttempt; EfRequest "https://cdn.example/img404.png"]).
Proof. vm_compute. reflexivity. Qed.

(** The same host and a URL without those digits: four attempts, with
    waits of 1, 2 and 3 between them. *)
Example retry_runs_out :
  let out := downloadFileWithRetryAndContext refusedEnv downloader3
               (mkItem "https://cdn.example/img.png" "0_img.png") emptyWorld in
  attempts out.2 = 4 ∧ waitsOf (effects out.2) = [1; 2; 3]%Z ∧
  length (requestsOf (effects out.2)) = 4.
Proof. vm_compute. done. Qed.

(** Status 500 on every attempt, two retries: three attempts, waits of 1
    and 2. *)
Example status_500_is_retried :
  let out := downloadFileWithRetryAndContext (statusEnv 500 None) downloader2
               itemA emptyWorld in
  attempts out.2 = 3 ∧ waitsOf (effects out.2) = [1; 2]%Z.
Proof. vm_compute. done. Qed.

(** Status 404 on the first attempt, three retries: one attempt, no
    wait. *)
Example status_404_is_final :
  let out := downloadFileWithRetryAndContext (statusEnv 404 None) downloader3
               itemA emptyWorld in
  attempts out.2 = 1 ∧ waitsOf (effects out.2) = [].
Proof. vm_compute. done. Qed.

(** The two lemmas on the retry loop, at a server that always answers
    500. *)
Lemma retryLoop_all_fail_witness :
  let out := retryLoop (statusEnv 500 None) downloader2 3 0 [] itemA emptyWorld in
  attempts out.2 = 3 ∧ waitsOf (effects out.2) = [1; 2]%Z.
Proof.
  destruct (retryLoop_all_fail (statusEnv 500 None) downloader2 itemA eq_refl)
    with (remaining := 3) (attempt := 0%Z) (errors := [] : list GoError) (w := emptyWorld)
    as (Ha & Hw & _).
  - intros w Hskip. unfold failsWith, downloadFileWithContext. cbn.
    unfold nothingToSkip in Hskip.
    destruct (files w !! _) as [size|]; [rewrite bool_decide_eq_false_2 by lia|];
      eexists; split; reflexivity.
  - reflexivity.
  - reflexivity.
  - split; [exact Ha | exact Hw].
Defined.

(** The not-found response comes on the third attempt of four: three
    attempts, waits of 1 and 2. *)
Lemma retryLoop_not_found_witness :
  let out := retryLoop flakyEnv downloader3 4 0 [] itemA emptyWorld in
  attempts out.2 = 3 ∧ waitsOf (effects out.2) = [1; 2]%Z.
Proof.
  assert (Hattempt : ∀ w, nothingToSkip "out/0_a.jpg" w →
            Error (downloadFileWithContext flakyEnv downloader3 itemA w).1
            = Some (ErrText ("HTTP " +:+ pretty (if (attempts w <? 2)%nat
                                                  then 500%Z else 404%Z)))).
  { intros w Hskip. unfold downloadFileWithContext. cbn. unfold nothingToSkip in Hskip.
    destruct (files w !! _) as [size|]; [rewrite bool_decide_eq_false_2 by lia|];
      by destruct (attempts w) as [|[|n]]. }
  destruct (retryLoop_not_found flakyEnv downloader3 itemA eq_refl 2 4 0%Z [] emptyWorld)
    as (Ha & Hw & _).
  - lia.
  - reflexivity.
  - reflexivity.
  - intros w Hskip Hn. eexists. split; [by apply Hattempt|].
    cbn in Hn. destruct (Nat.ltb_spec (attempts w) 2); [reflexivity | lia].
  - intros w Hskip Hn. eexists. split; [by apply Hattempt|].
    cbn in Hn. rewrite Hn. reflexivity.
  - split; [exact Ha | exact Hw].
Defined.

(** ** The skip check *)

(** The file of the job is there, 1024 bytes long, and the context has
    not ended: one pass, the skip, no request. *)
Lemma existing_file_is_skipped_witness :
  downloadFileWithRetryAndContext (statusEnv 200 None) downloader3 itemA worldWithA
  = (mkResult itemA 1024 None true,
     mkWorld {[ "out/0_a.jpg" := 1024%Z ]} 1 1 [EfAttempt]).
Proof.
  apply (existing_file_is_skipped (statusEnv 200 None) downloader3 itemA worldWithA 1024).
  - cbn. lia.
  - reflexivity.
  - lia.
Defined.

(** C5 as the design document states it fails when the context has
    ended before the job starts: the file is there, 1024 bytes long, and
    the result is the context's error, not the skip. *)
Lemma skip_check_comes_after_context_check :
  ¬ skipsExistingFile (statusEnv 200 (Some (0, Canceled))) downloader3 itemA worldWithA.
Proof.
  intros Hclaim. specialize (Hclaim 1024%Z eq_refl ltac:(lia)).
  vm_compute in Hclaim. discriminate.
Qed.

(** ** A failed copy *)

(** Seven bytes reach the file before the write fails; the Result has
    size 0 and the file is gone. *)
Example failed_copy_is_cleaned_up :
  let out := downloadFileWithContext brokenCopyEnv downloader3 itemA emptyWorld in
  Size out.1 = 0%Z ∧ is_Some (Error out.1) ∧ files out.2 !! "out/0_a.jpg" = None ∧
  effects out.2 = [EfAttempt; EfRequest "https://telegra.ph/file/a.jpg";
                   EfCreate "out/0_a.jpg"; EfRemove "out/0_a.jpg"].
Proof. vm_compute. split_and!; eauto. Qed.

(** ** The worker pool *)



(** Without a worker [results] is closed at once: nothing is returned
    for any job. *)
Example no_worker_no_result :
  DownloadAllWithContext downloader0 [itemA; itemB] (mkStats 2 0 0 0 0 0, []).
Proof. exists [], (start downloader0 [itemA; itemB]), 0%Z. by split_and!. Qed.

End Runs.

(** * Further properties *)

(** ** Byte strings *)

Section StringFacts.
Import GoStrings.

Lemma append_cons (x : ascii) (a b : string) : String x a +:+ b = String x (a +:+ b).
Proof. reflexivity. Qed.

Lemma append_nil_l (b : string) : "" +:+ b = b.
Proof. reflexivity. Qed.

Lemma append_assoc (a b c : string) : (a +:+ b) +:+ c = a +:+ b +:+ c.
Proof.
  induction a as [|x a IH]; [done|]. rewrite !append_cons. by f_equal.
Qed.

Lemma append_nil_r (a : string) : a +:+ "" = a.
Proof. induction a as [|x a IH]; [done|]. rewrite append_cons. by f_equal. Qed.

Lemma length_append (a b : string) :
  String.length (a +:+ b) = String.length a + String.length b.
Proof.
  induction a as [|x a IH]; [done|]. rewrite append_cons. cbn. by f_equal.
Qed.

Lemma prefix_append (p r : string) : String.prefix p (p +:+ r) = true.
Proof.
  induction p as [|x p IH]; [by destruct r|]. rewrite append_cons. cbn.
  by destruct (ascii_dec x x).
Qed.

Lemma prefix_inv (p s : string) :
  String.prefix p s = true → ∃ r, s = p +:+ r.
Proof.
  revert s. induction p as [|x p IH]; intros s; cbn.
  - intros _. by exists s.
  - destruct s as [|y s]; cbn; [intros; discriminate|].
    destruct (ascii_dec x y) as [->|]; [|intros; discriminate].
    intros Hp. destruct (IH s Hp) as [r ->]. by exists r.
Qed.

Lemma sliceTo_append (p r : string) : sliceTo (p +:+ r) (String.length p) = p.
Proof.
  unfold sliceTo. induction p as [|x p IH]; [by destruct r|].
  rewrite append_cons. cbn. by rewrite IH.
Qed.

Lemma sliceFrom_append (p r : string) : sliceFrom (p +:+ r) (String.length p) = r.
Proof.
  unfold sliceFrom. rewrite length_append.
  replace (String.length p + String.length r - String.length p)
    with (String.length r) by lia.
  induction p as [|x p IH]; [|by rewrite append_cons].
  rewrite append_nil_l. cbn [String.length].
  induction r as [|y r IHr]; cbn; [done|]. by rewrite IHr.
Qed.



(** [strings.Index] with a one-byte needle that the head of the string
    does not hold. *)
Lemma Index_byte (a b : string) (c : ascii) :
  mentions c a = false →
  Index (a +:+ String c b) (String c "") = Some (String.length a).
Proof.
  induction a as [|x a IH].
  - intros _. rewrite append_nil_l. cbn. destruct (ascii_dec c c); [|done]. by destruct b.
  - rewrite append_cons. cbn. intros Hno. apply orb_false_elim in Hno as [Hx Ha].
    destruct (ascii_dec c x) as [->|Hne]; [by rewrite Ascii.eqb_refl in Hx|].
    by rewrite (IH Ha).
Qed.

(** *** Decimal numerals *)

Lemma digitValue_char (x : N) :
  (x < 10)%N → digitValue (pretty_N_char x) = Some (Z.of_N x).
Proof.
  intros Hx.
  assert (x = 0 ∨ x = 1 ∨ x = 2 ∨ x = 3 ∨ x = 4 ∨ x = 5 ∨ x = 6 ∨ x = 7
          ∨ x = 8 ∨ x = 9)%N as Hcases by lia.
  repeat (destruct Hcases as [->|Hcases]; [reflexivity|]). by subst.
Qed.

(** What [pretty] puts in front of [s]: digits that read back as [x]. *)
Lemma pretty_N_go_digits (x : N) (s : string) :
  ∃ ds, pretty_N_go x s = ds +:+ s ∧ allDigits ds = true ∧
        ((0 < x)%N → ds ≠ "") ∧
        ∀ rest n, parseDigits (ds +:+ rest) n
                  = parseDigits rest (n * 10 ^ Z.of_nat (String.length ds) + Z.of_N x).
Proof.
  revert s. induction (N.lt_wf_0 x) as [x _ IH]; intros s.
  destruct (decide (x = 0)%N) as [->|Hx].
  - exists "". rewrite pretty_N_go_0. split_and!; [done | done | lia |].
    intros rest n. rewrite append_nil_l. cbn. f_equal. lia.
  - rewrite pretty_N_go_step by lia.
    destruct (IH (x `div` 10)%N) with (s := String (pretty_N_char (x `mod` 10)) s)
      as (ds & -> & Hds & _ & Hparse).
    { apply N.div_lt; lia. }
    exists (ds +:+ String (pretty_N_char (x `mod` 10)) "").
    assert (Hmod : (x `mod` 10 < 10)%N) by (apply N.mod_lt; lia).
    split_and!.
    + by rewrite append_assoc.
    + clear Hparse. induction ds as [|d ds IHds].
      * rewrite append_nil_l. cbn. by rewrite (digitValue_char _ Hmod).
      * rewrite append_cons. cbn in *. destruct (digitValue d); [by apply IHds | done].
    + intros _. by destruct ds.
    + intros rest n. rewrite append_assoc, append_cons, append_nil_l.
      rewrite Hparse. cbn [parseDigits]. rewrite (digitValue_char _ Hmod).
      f_equal. rewrite length_append. cbn [String.length].
      rewrite Nat2Z.inj_add, Z.pow_add_r by lia.
      change (10 ^ Z.of_nat 1)%Z with 10%Z.
      pose proof (N.div_mod x 10 ltac:(lia)) as Hdm.
      assert (Z.of_N x = 10 * Z.of_N (x `div` 10) + Z.of_N (x `mod` 10))%Z by lia.
      lia.
Qed.

(** The numeral of a natural number: digits only, not empty, read back
    by the digit loop. *)
Lemma pretty_nat_digits (n : nat) :
  allDigits (pretty n) = true ∧ pretty n ≠ "" ∧
  parseDigits (pretty n) 0 = Some (Z.of_nat n).
Proof.
  unfold pretty, pretty_nat, pretty, pretty_N.
  destruct (decide (N.of_nat n = 0)%N) as [Hz|Hnz].
  - assert (n = 0) as -> by lia. by split_and!.
  - destruct (pretty_N_go_digits (N.of_nat n) "") as (ds & -> & Hds & Hne & Hparse).
    rewrite append_nil_r. split_and!; [done | apply Hne; lia |].
    specialize (Hparse "" 0%Z). rewrite append_nil_r in Hparse. rewrite Hparse.
    cbn. f_equal. lia.
Qed.

Lemma allDigits_mentions (c : ascii) (s : string) :
  digitValue c = None → allDigits s = true → mentions c s = false.
Proof.
  intros Hc. induction s as [|x s IH]; cbn; [done|].
  destruct (digitValue x) eqn:Hx; [|done]. intros Hs. rewrite (IH Hs), orb_false_r.
  destruct (Ascii.eqb_spec x c) as [->|]; [|done]. congruence.
Qed.

Lemma Atoi_pretty (n : nat) :
  (Z.of_nat n < 2 ^ 63)%Z → Atoi (pretty n) = Some (Z.of_nat n).
Proof.
  intros Hn. destruct (pretty_nat_digits n) as (Hds & Hne & Hparse).
  unfold Atoi. destruct (pretty n) as [|c rest] eqn:Hp; [done|].
  cbn in Hds. destruct (digitValue c) eqn:Hc; [|done].
  assert (Ascii.eqb c "-" = false ∧ Ascii.eqb c "+" = false) as [-> ->].
  { split; [destruct (Ascii.eqb_spec c "-") | destruct (Ascii.eqb_spec c "+")];
      subst; done. }
  cbn [orb]. rewrite Hparse. rewrite bool_decide_eq_true_2; [done|]. lia.
Qed.

End StringFacts.

(** ** More on the media extractor *)

Section MoreParserProperties.
Import Parser GoStrings.
Context `{GoStdlib}.

Lemma underscore_append (base : string) : "_" +:+ base = String "_" base.
Proof. reflexivity. Qed.

(** X1. The index put in front of a filename by [generateFilename] is the
    one [extractIndexFromFilename] reads back, for every index that
    fits an [int]. *)
Theorem extractIndexFromFilename_generateFilename p url index name :
  generateFilename p url index = Some name →
  (Z.of_nat index < 2 ^ 63)%Z →
  extractIndexFromFilename name = Z.of_nat index.
Proof.
  intros Hname Hindex. apply generateFilename_prefix in Hname as [base ->].
  destruct (pretty_nat_digits index) as (Hds & _ & _).
  unfold extractIndexFromFilename. rewrite underscore_append.
  rewrite Index_byte by (by apply allDigits_mentions).
  rewrite sliceTo_append. by rewrite Atoi_pretty.
Qed.




(** *** Path separators *)






(** *** The statistics of [ExtractWithStats] *)

Lemma countTotalNodes_preorder nodes : countTotalNodes nodes = length (preorder nodes).
Proof.
  assert (Hnode : ∀ node, S (countNode node) = length (preorderNode node)).
  { induction node as [tag attrs children IH] using ContentNode_tree_ind.
    cbn [countNode preorderNode Children length]. f_equal.
    induction IH as [|c cs Hc _ IHcs]; [done|].
    cbn [flat_map]. rewrite length_app, <- Hc, <- IHcs. done. }
  induction nodes as [|n ns IH]; [done|].
  unfold preorder in *. cbn [countTotalNodes flat_map].
  by rewrite length_app, <- Hnode, IH.
Qed.

Lemma visited_snoc_visit log node : visited (log ++ [EvVisit node]) = visited log ++ [node].
Proof. unfold visited. by rewrite omap_app. Qed.

Lemma visited_snoc_yield log item more :
  visited (log ++ [EvYield item more]) = visited log.
Proof. unfold visited. rewrite omap_app. cbn. by rewrite app_nil_r. Qed.

Lemma visitNode_statsInv p node w b w' :
  statsInv w → visitNode p statsBody node w = Some (b, w') → statsInv w'.
Proof.
  intros (Hm & Hv & Hdom & Htrue & Hlen). unfold visitNode, statsInv. cbn.
  assert (Hskip : statsInv (mkWalk (mediaIndex w) (sink w) (trace w ++ [EvVisit node]))).
  { unfold statsInv. cbn. rewrite visited_snoc_visit, length_app. cbn.
    split_and!; [done..|lia]. }
  destruct (isMediaTag p (Tag node)); [|by intros [= <- <-]].
  destruct (parseMediaNode p node (mediaIndex w)) as [[item []]|] eqn:Hp; cbn;
    [| by intros [= <- <-] | done].
  apply parseMediaNode_ok in Hp as (Hurl & _).
  unfold statsBody. apply String.eqb_neq in Hurl. rewrite Hurl. cbn.
  intros [= <- <-]. cbn.
  rewrite visited_snoc_yield, visited_snoc_visit, !length_app, fmap_app.
  cbn [length fmap list_fmap]. rewrite list_to_set_app_L. cbn [list_to_set foldr].
  split_and!; [lia | lia | | | lia].
  - destruct (urlSet (sink w) !! URL (Item item)) as [v|] eqn:Hlook; cbn.
    + rewrite (Htrue _ _ Hlook). cbn. rewrite <- Hdom.
      assert (URL (Item item) ∈ dom (urlSet (sink w))) by (apply elem_of_dom; eauto).
      set_solver.
    + rewrite dom_insert_L, Hdom. set_solver.
  - intros u v. destruct (negb (default false (urlSet (sink w) !! URL (Item item)))).
    + destruct (decide (u = URL (Item item))) as [->|Hne].
      * rewrite lookup_insert_eq. congruence.
      * rewrite lookup_insert_ne by done. apply Htrue.
    + apply Htrue.
Qed.

Lemma dedup_length_distinct (items : list MediaItem) :
  length (DeduplicateURLs items) = size (list_to_set (URL <$> items) : gset string).
Proof.
  destruct (dedup_urls items ∅) as [Hnd Hin]. fold (DeduplicateURLs items) in Hnd, Hin.
  rewrite <- (length_fmap URL), <- (size_list_to_set (C := gset string)) by done.
  f_equal. apply set_eq. intros u. rewrite !elem_of_list_to_set, Hin, lookup_empty.
  naive_solver.
Qed.

(** X4. The statistics [ExtractWithStats] returns with its items:
    TotalNodes is the number of nodes of the tree, MediaNodes and ValidMedia
    are both the number of items, and UniqueURLs is the number of items
    [DeduplicateURLs] keeps; so UniqueURLs <= ValidMedia <= TotalNodes. *)
Theorem ExtractWithStats_counts p content :
  match ExtractWithStats p content with
  | Some (items, st) =>
      TotalNodes st = length (preorder (Nodes content)) ∧
      MediaNodes st = length items ∧ ValidMedia st = length items ∧
      UniqueURLs st = length (DeduplicateURLs items) ∧
      (UniqueURLs st ≤ ValidMedia st)%nat ∧ (ValidMedia st ≤ TotalNodes st)%nat
  | None => "" ∈ fileExtensions p
  end.
Proof.
  unfold ExtractWithStats.
  destruct (iterateMediaItems p statsBody (Nodes content) _) as [w|] eqn:Hw; cbn;
    [|by eapply walk_None].
  assert (Hinv : statsInv w).
  { eapply (walk_invariant p statsBody statsInv); [apply visitNode_statsInv| |exact Hw].
    unfold statsInv. cbn. by split_and!. }
  destruct Hinv as (Hm & Hv & Hdom & _ & Hlen).
  assert (Hvisited : visited (trace w) = preorder (Nodes content)).
  { assert (Hacc : accepting statsBody).
    { intros item x. unfold statsBody. by destruct (String.eqb _ _). }
    unfold iterateMediaItems in Hw. rewrite (walk_preorder p statsBody Hacc) in Hw.
    by apply (visitAll_visited p statsBody _ _ _ Hacc) in Hw. }
  rewrite Hvisited in Hlen. rewrite countTotalNodes_preorder.
  assert (Huniq : size (urlSet (sink w)) = length (DeduplicateURLs (mediaItems (sink w)))).
  { by rewrite dedup_length_distinct, <- Hdom, size_dom. }
  split_and!; [done | done | done | done | | lia].
  rewrite Huniq, Hv. apply sublist_length, DeleteFunc_sublist.
Qed.

(** *** More on deduplication *)

Lemma dedup_fixed rest seen :
  NoDup (URL <$> rest) →
  (∀ u, u ∈ URL <$> rest → default false (seen !! u) = false) →
  DeleteFunc seenBefore rest seen = rest.
Proof.
  revert seen. induction rest as [|x rest IH]; intros seen Hnd Hseen; [done|].
  rewrite fmap_cons in Hnd. inversion Hnd as [|? ? Hx Hrest]; subst.
  rewrite DeleteFunc_seenBefore_cons.
  rewrite Hseen by (rewrite fmap_cons; apply list_elem_of_here).
  f_equal. apply IH; [done|]. intros u Hu.
  destruct (decide (u = URL x)) as [->|Hne]; [done|].
  rewrite lookup_insert_ne by done. apply Hseen. rewrite fmap_cons.
  by apply list_elem_of_further.
Qed.

(** X5. Deduplicating twice is deduplicating once, and a list is left as
    it is exactly when its URLs are pairwise distinct. *)
Theorem DeduplicateURLs_idempotent items :
  DeduplicateURLs (DeduplicateURLs items) = DeduplicateURLs items ∧
  (DeduplicateURLs items = items ↔ NoDup (URL <$> items)).
Proof.
  assert (Hfix : ∀ l, NoDup (URL <$> l) → DeduplicateURLs l = l).
  { intros l Hl. apply dedup_fixed; [done|]. intros u _. by rewrite lookup_empty. }
  split.
  - apply Hfix. apply dedup_urls.
  - split; [|apply Hfix]. intros <-. apply dedup_urls.
Qed.

(** *** Validation *)

Lemma AddError_app errs e : AddError errs (Some e) = errs ++ [e].
Proof. done. Qed.

Lemma validateItem_app i item errors :
  validateItem i item errors = errors ++ validateItem i item [].
Proof.
  unfold validateItem.
  destruct (String.eqb (URL item) ""), (String.eqb (Filename item) ""),
    (Contains (Filename item) ".."); rewrite ?AddError_app; cbn;
    by rewrite <- ?app_assoc, ?app_nil_r.
Qed.

Lemma validateItem_nil i item : validateItem i item [] = [] ↔ wellFormed item.
Proof.
  unfold validateItem, wellFormed.
  destruct (String.eqb_spec (URL item) ""), (String.eqb_spec (Filename item) ""),
    (Contains (Filename item) ".."); cbn; naive_solver.
Qed.

Lemma validateItem_length i item : (length (validateItem i item []) ≤ 3)%nat.
Proof.
  unfold validateItem.
  destruct (String.eqb (URL item) ""), (String.eqb (Filename item) ""),
    (Contains (Filename item) ".."); cbn; lia.
Qed.

(** The errors are reported item by item, in the order of the list. *)
Lemma ValidateMedia_items items k errors :
  foldl (λ errors ix, validateItem ix.1 ix.2 errors) errors
        (imap (λ i x, (k + i, x)) items)
  = errors ++ mjoin (imap (λ i x, validateItem (k + i) x []) items).
Proof.
  revert k errors. induction items as [|x items IH]; intros k errors.
  - cbn. by rewrite app_nil_r.
  - cbn [imap foldl mjoin list_join fst snd].
    rewrite (imap_ext _ (λ i y, (S k + i, y))) by (intros; cbn; f_equal; lia).
    rewrite IH, validateItem_app, <- app_assoc. do 3 f_equal.
    apply imap_ext. intros. cbn. f_equal. lia.
Qed.

(** X6. [ValidateMedia] reports nothing exactly when every item has a URL,
    a filename, and no ".." in the filename; it reports three errors per
    item at most. *)
Theorem ValidateMedia_clean items :
  (ValidateMedia items = [] ↔ Forall wellFormed items) ∧
  (length (ValidateMedia items) ≤ 3 * length items)%nat.
Proof.
  unfold ValidateMedia.
  rewrite (imap_ext pair (λ i x, (0 + i, x))) by done.
  rewrite ValidateMedia_items. cbn [app].
  cut (∀ k, (mjoin (imap (λ i x, validateItem (k + i) x []) items) = []
             ↔ Forall wellFormed items) ∧
            (length (mjoin (imap (λ i x, validateItem (k + i) x []) items))
             ≤ 3 * length items)%nat).
  { intros Hgen. apply Hgen. }
  induction items as [|x items IH]; intros k.
  - cbn. split; [split; [constructor | done] | lia].
  - cbn [imap mjoin list_join]. rewrite Nat.add_0_r.
    rewrite (imap_ext _ (λ i y, validateItem (S k + i) y [])) by (intros; cbn; f_equal; lia).
    destruct (IH (S k)) as [Hiff Hlen]. split.
    + split.
      * intros [Hx Hrest]%app_eq_nil. constructor; [by eapply validateItem_nil|].
        by apply Hiff.
      * intros Hall. inversion Hall as [|? ? Hx Hrest]; subst.
        apply validateItem_nil with (i := k) in Hx. rewrite Hx. cbn. by apply Hiff.
    + rewrite length_app. pose proof (validateItem_length k x). cbn [length].
      etrans; [apply Nat.add_le_mono; [done | exact Hlen]|]. lia.
Qed.

Lemma visitNode_named p node w b w' :
  Forall (λ item, URL item ≠ "" ∧ Filename item ≠ "") (sink w) →
  visitNode p appendItem node w = Some (b, w') →
  Forall (λ item, URL item ≠ "" ∧ Filename item ≠ "") (sink w').
Proof.
  intros Hw. unfold visitNode. cbn.
  destruct (isMediaTag p (Tag node)); [|by intros [= <- <-]].
  destruct (parseMediaNode p node (mediaIndex w)) as [[item []]|] eqn:Hp; cbn;
    [| by intros [= <- <-] | done].
  apply parseMediaNode_ok in Hp as (Hurl & _ & _ & _ & base & Hname).
  intros [= <- <-]. cbn. apply Forall_app. split; [done|]. apply Forall_singleton.
  split; [done|]. rewrite Hname. destruct (pretty_nat_digits (mediaIndex w)) as (_ & Hne & _).
  by destruct (pretty (mediaIndex w)).
Qed.

(** X7. On what [ExtractMedia] returns, [ValidateMedia] never reports an
    empty URL or an empty filename: every error it reports is a path
    traversal. *)
Theorem ValidateMedia_of_extraction p content :
  match ExtractMedia p content with
  | Some items =>
      Forall (λ e, ∃ field, e = ErrValidation field "contains path traversal")
             (ValidateMedia items)
  | None => "" ∈ fileExtensions p
  end.
Proof.
  unfold ExtractMedia.
  destruct (iterateMediaItems p appendItem (Nodes content) []) as [w|] eqn:Hw; cbn;
    [|by eapply walk_None].
  assert (Hnamed : Forall (λ item, URL item ≠ "" ∧ Filename item ≠ "") (sink w)).
  { eapply (walk_invariant p appendItem
              (λ w, Forall (λ item, URL item ≠ "" ∧ Filename item ≠ "") (sink w)));
      [apply visitNode_named | | exact Hw]. constructor. }
  unfold ValidateMedia. rewrite (imap_ext pair (λ i x, (0 + i, x))) by done.
  rewrite ValidateMedia_items. cbn [app]. generalize 0 at 1.
  induction Hnamed as [|x items [Hurl Hname] _ IH]; intros k; [constructor|].
  cbn [imap mjoin list_join]. rewrite Nat.add_0_r.
  rewrite (imap_ext _ (λ i y, validateItem (S k + i) y [])) by (intros; cbn; f_equal; lia).
  apply Forall_app. split; [|apply IH].
  unfold validateItem. apply String.eqb_neq in Hurl, Hname. rewrite Hurl, Hname.
  destruct (Contains (Filename x) ".."); [|constructor].
  apply Forall_singleton. eauto.
Qed.

(** *** Filtering and grouping by extension *)

Lemma DeleteFunc_filter {A} (keep : A → bool) (l : list A) :
  DeleteFunc (λ x (_ : unit), (negb (keep x), tt)) l tt = filter (λ x, keep x = true) l.
Proof.
  induction l as [|x l IH]; [done|]. rewrite filter_cons. cbn [DeleteFunc]. rewrite IH.
  destruct (keep x); cbn [negb]; [by rewrite decide_True | by rewrite decide_False].
Qed.

(** X8. [FilterByExtension] keeps, in order, exactly the items whose
    lower-cased extension is listed; with no extension listed it keeps
    every item; filtering twice is filtering once. *)
Theorem FilterByExtension_filter items extensions :
  FilterByExtension items [] = items ∧
  (extensions ≠ [] →
   FilterByExtension items extensions
   = filter (λ item, strings_ToLower (Ext (Filename item)) ∈ extensions) items) ∧
  FilterByExtension (FilterByExtension items extensions) extensions
  = FilterByExtension items extensions.
Proof.
  assert (Hfilter : ∀ l, extensions ≠ [] →
    FilterByExtension l extensions
    = filter (λ item, strings_ToLower (Ext (Filename item)) ∈ extensions) l).
  { intros l Hne. unfold FilterByExtension. destruct extensions as [|e es]; [done|].
    unfold extensionNotListed.
    rewrite (DeleteFunc_filter
               (λ item, bool_decide (strings_ToLower (Ext (Filename item)) ∈ e :: es))).
    apply list_filter_iff. intros item. by rewrite bool_decide_eq_true. }
  split_and!; [done | apply Hfilter |].
  destruct (decide (extensions = [])) as [->|Hne]; [done|].
  rewrite !Hfilter by done. by rewrite list_filter_filter_l.
Qed.

Lemma group_step_lookup (groups : gmap string (list MediaItem)) item k :
  default [] (<[groupKey item := default [] (groups !! groupKey item) ++ [item]]> groups !! k)
  = default [] (groups !! k) ++ (if decide (groupKey item = k) then [item] else []).
Proof.
  destruct (decide (groupKey item = k)) as [->|Hne].
  - by rewrite lookup_insert_eq.
  - rewrite lookup_insert_ne by done. by rewrite app_nil_r.
Qed.

(** X9. [GroupByExtension] puts every item in the group of its own key
    and nowhere else, in the order of the list, and makes no empty group:
    the group under a key is the list of the items with that key, and a key
    is present exactly when some item has it. *)
Theorem GroupByExtension_partition items k :
  default [] (GroupByExtension items !! k) = filter (λ item, groupKey item = k) items ∧
  (is_Some (GroupByExtension items !! k) ↔ ∃ item, item ∈ items ∧ groupKey item = k).
Proof.
  unfold GroupByExtension.
  assert (Hgen : ∀ l (groups : gmap string (list MediaItem)),
    let out := foldl (λ groups item,
                 <[groupKey item := default [] (groups !! groupKey item) ++ [item]]> groups)
                 groups l in
    default [] (out !! k) = default [] (groups !! k) ++ filter (λ item, groupKey item = k) l ∧
    (is_Some (out !! k) ↔ is_Some (groups !! k) ∨ ∃ item, item ∈ l ∧ groupKey item = k)).
  { induction l as [|x l IH]; intros groups; cbn zeta.
    - cbn. rewrite app_nil_r. split; [done|].
      split; [by left|]. intros [?|(item & []%elem_of_nil & _)]. done.
    - cbn [foldl]. destruct (IH (<[groupKey x := default [] (groups !! groupKey x) ++ [x]]>
                                   groups)) as [Hd Hs].
      cbn zeta in Hd, Hs. rewrite Hd, Hs, group_step_lookup, filter_cons. split.
      + destruct (decide (groupKey x = k)); rewrite <- app_assoc; by rewrite ?app_nil_r.
      + rewrite lookup_insert_is_Some. split.
        * intros [[Hk|[_ Hg]]|(item & Hin & Hk)].
          -- right. exists x. split; [apply list_elem_of_here | done].
          -- by left.
          -- right. exists item. split; [by apply list_elem_of_further | done].
        * intros [Hg|(item & Hin & Hk)].
          -- left. destruct (decide (groupKey x = k)); [by left | by right].
          -- apply elem_of_cons in Hin as [->|Hin]; [left; by left|].
             right. by exists item. }
  destruct (Hgen items ∅) as [Hd Hs]. cbn zeta in Hd, Hs.
  rewrite Hd, Hs, lookup_empty. cbn. split; [done|].
  split; [intros [[? [=]]|?]; done | by right].
Qed.

(** *** Early termination on one nesting level *)

Lemma afterRefusal_accepted log extra :
  Forall (λ e, match e with EvYield _ false => False | _ => True end) log →
  afterRefusal (log ++ extra) = afterRefusal extra.
Proof.
  induction 1 as [|e log He _ IH]; [done|]. cbn.
  destruct e as [node|item []]; done.
Qed.

(** X10. On a list of nodes without children the traversal stops at the
    first item the consumer refuses: nothing is visited and nothing is
    yielded after it. *)
Theorem flat_walk_stops_at_refusal {C} p (yield : ParsedMedia → C → bool * C) nodes c :
  Forall (λ node, Children node = []) nodes →
  match iterateMediaItems p yield nodes c with
  | Some w => afterRefusal (trace w) = []
  | None => "" ∈ fileExtensions p
  end.
Proof.
  intros Hflat. unfold iterateMediaItems.
  cut (∀ w, Forall (λ e, match e with EvYield _ false => False | _ => True end) (trace w) →
         match walkNodesForMedia p yield nodes w with
         | Some w' => afterRefusal (trace w') = []
         | None => "" ∈ fileExtensions p
         end).
  { intros Hgen. apply Hgen. constructor. }
  induction Hflat as [|node nodes Hnode _ IH]; intros w Hw.
  - cbn. rewrite <- (app_nil_r (trace w)). by rewrite afterRefusal_accepted.
  - cbn [walkNodesForMedia]. rewrite walkNode_eq, Hnode.
    destruct (visitNode p yield node w) as [[continue w1]|] eqn:Hv; cbn;
      [|by eapply visitNode_None].
    revert Hv. unfold visitNode. cbn.
    assert (Hvisit : Forall (λ e, match e with EvYield _ false => False | _ => True end)
                       (trace w ++ [EvVisit node])).
    { apply Forall_app. split; [done|]. by apply Forall_singleton. }
    destruct (isMediaTag p (Tag node)).
    + destruct (parseMediaNode p node (mediaIndex w)) as [[item []]|]; cbn; [| |done].
      * destruct (yield item (sink w)) as [[] c1]; intros [= <- <-]; cbn.
        -- apply IH. cbn. apply Forall_app. split; [done|]. by apply Forall_singleton.
        -- rewrite afterRefusal_accepted by done. done.
      * intros [= <- <-]. cbn. by apply IH.
    + intros [= <- <-]. cbn. by apply IH.
Qed.

End MoreParserProperties.

(** ** More on the downloader *)

Section MoreDownloaderProperties.
Import Downloader GoStrings.
Context `{GoStdlib}.

(** *** The copy *)

Lemma wrap64_small z : (- 2 ^ 63 ≤ z < 2 ^ 63)%Z → wrap64 z = z.
Proof. intros Hz. unfold wrap64. rewrite Z.mod_small; lia. Qed.

Lemma wrap64_range z : (- 2 ^ 63 ≤ wrap64 z < 2 ^ 63)%Z.
Proof.
  unfold wrap64. pose proof (Z.mod_pos_bound (z + 2 ^ 63) (2 ^ 64) ltac:(lia)). lia.
Qed.

Lemma wrap64_idemp z : wrap64 (wrap64 z) = wrap64 z.
Proof. apply wrap64_small, wrap64_range. Qed.

Lemma bytesRead_nonneg body : (0 ≤ bytesRead body)%Z.
Proof.
  induction body as [|chunk rest IH]; cbn; [done|].
  case_bool_decide; destruct (readErr chunk); lia.
Qed.

(** A copy that ends without error got through every read up to the end
    of the body, and every write wrote what was read. *)
Lemma copyWithContext_success env path body written w n w' size :
  copyWithContext env path body written w = ((n, None), w') →
  files w !! path = Some size →
  files w' !! path = Some (size + bytesRead body)%Z ∧
  wrap64 n = wrap64 (written + bytesRead body).
Proof.
  revert written w size. induction body as [|chunk rest IH]; intros written w size; cbn.
  - pose proof (ctxDone_world env w) as Hw.
    destruct (ctxDone env w) as [[c|] w1]; cbn in *; [done|]. subst w1.
    intros [= <- <-] Hsize. cbn. by rewrite !Z.add_0_r.
  - pose proof (ctxDone_world env w) as Hw.
    destruct (ctxDone env w) as [[c|] w1]; cbn in *; [done|]. subst w1.
    case_bool_decide as Hnr.
    + case_bool_decide as Hinvalid; [by destruct (writeErr chunk)|].
      destruct (writeErr chunk); [done|].
      case_bool_decide as Hshort; [done|].
      assert (Hnw : nw chunk = nr chunk) by (by destruct (decide (nr chunk = nw chunk))).
      intros Hrun Hsize. unfold setFiles in Hrun. cbn in Hrun. rewrite Hsize in Hrun. cbn in Hrun.
      destruct (readErr chunk) as [[e|]|].
      * done.
      * simplify_eq. cbn. rewrite lookup_insert_eq. split; [f_equal; lia|].
        unfold add64. rewrite wrap64_idemp. f_equal. lia.
      * apply IH with (size := (size + nw chunk)%Z) in Hrun as [Hfile Hn];
          [|cbn; by rewrite lookup_insert_eq].
        rewrite Hfile, Hn. split; [f_equal; lia|].
        unfold add64. rewrite wrap64_add. f_equal. lia.
    + intros Hrun Hsize. destruct (readErr chunk) as [[e|]|].
      * done.
      * simplify_eq. cbn. split; [by rewrite !Z.add_0_r | f_equal; lia].
      * apply IH with (size := size) in Hrun as [Hfile Hn]; [|done].
        rewrite Hfile, Hn. split; f_equal; lia.
Qed.

(** The count a copy returns is an int64, whatever the outcome. *)
Lemma copyWithContext_range env path body written w :
  (- 2 ^ 63 ≤ written < 2 ^ 63)%Z →
  (- 2 ^ 63 ≤ (copyWithContext env path body written w).1.1 < 2 ^ 63)%Z.
Proof.
  revert written w. induction body as [|chunk rest IH]; intros written w Hw; cbn.
  - by destruct (ctxDone env w) as [[c|] w1].
  - destruct (ctxDone env w) as [[c|] w1]; [done|].
    pose proof (wrap64_range (written + nw chunk)) as Hadd.
    pose proof (wrap64_range (written + 0)) as Hadd0.
    repeat case_match; cbn; try done; try apply IH; done.
Qed.

(** X11. A copy that returns no error reports the number of bytes it
    read, and the destination has grown by that number (when the total
    fits an int64). *)
Theorem copyWithContext_reports_bytes env path body written w n w' size :
  copyWithContext env path body written w = ((n, None), w') →
  files w !! path = Some size →
  (- 2 ^ 63 ≤ written)%Z → (written + bytesRead body < 2 ^ 63)%Z →
  n = (written + bytesRead body)%Z ∧
  files w' !! path = Some (size + bytesRead body)%Z.
Proof.
  intros Hrun Hsize Hlow Hhigh.
  pose proof (bytesRead_nonneg body) as Hpos.
  destruct (copyWithContext_success env path body written w n w' size Hrun Hsize)
    as [Hfile Hn].
  split; [|done]. rewrite (wrap64_small (written + bytesRead body)) in Hn by lia.
  rewrite <- Hn. symmetry. apply wrap64_small.
  pose proof (copyWithContext_range env path body written w ltac:(lia)) as Hrange.
  by rewrite Hrun in Hrange.
Qed.

(** *** One attempt, one job *)

Lemma downloadFileWithContext_effects env d item w :
  ∃ trail,
    trail ∈ attemptTrail (buildURL d (URL item))
              (filepath_Join (outputDir d) (Filename item)) ∧
    effects (downloadFileWithContext env d item w).2 = effects w ++ EfAttempt :: trail.
Proof.
  unfold downloadFileWithContext, attemptTrail.
  set (path := filepath_Join (outputDir d) (Filename item)).
  set (url := buildURL d (URL item)).
  set (x := exchange env (attempts w) url).
  cbn [files logEffect setFiles polls attempts effects].
  assert (Hskip : ∃ trail,
            trail ∈ [[]; [EfRequest url]; [EfRequest url; EfCreate path];
                     [EfRequest url; EfCreate path; EfRemove path]] ∧
            effects w ++ [EfAttempt] = effects w ++ EfAttempt :: trail).
  { exists []. split; [apply list_elem_of_here | done]. }
  assert (Htransfer : ∀ rw, rw =
      match newRequestErr x with
      | Some e => (mkResult item 0 (Some (ErrWrap "failed to create request: " e)) false,
                   mkWorld (files w) (polls w) (S (attempts w)) (effects w ++ [EfAttempt]))
      | None =>
          match response x with
          | inl e => (mkResult item 0 (Some (ErrWrap "HTTP request failed: " e)) false,
                      mkWorld (files w) (polls w) (S (attempts w))
                        ((effects w ++ [EfAttempt]) ++ [EfRequest url]))
          | inr (status, body) =>
              if bool_decide (status ≠ 200)%Z
              then (mkResult item 0 (Some (ErrText ("HTTP " +:+ pretty status))) false,
                    mkWorld (files w) (polls w) (S (attempts w))
                      ((effects w ++ [EfAttempt]) ++ [EfRequest url]))
              else
                match createErr x with
                | Some e => (mkResult item 0 (Some (ErrWrap "failed to create file: " e)) false,
                             mkWorld (files w) (polls w) (S (attempts w))
                               ((effects w ++ [EfAttempt]) ++ [EfRequest url]))
                | None =>
                    let '((size, err), w) :=
                      copyWithContext env path body 0
                        (mkWorld (<[path := 0%Z]> (files w)) (polls w) (S (attempts w))
                           (((effects w ++ [EfAttempt]) ++ [EfRequest url])
                              ++ [EfCreate path])) in
                    match err with
                    | Some e =>
                        (mkResult item 0 (Some (ErrWrap "failed to copy file: " e)) false,
                         mkWorld (delete path (files w)) (polls w) (attempts w)
                           (effects w ++ [EfRemove path]))
                    | None => (mkResult item size None false, w)
                    end
                end
          end
      end →
      ∃ trail,
        trail ∈ [[]; [EfRequest url]; [EfRequest url; EfCreate path];
                 [EfRequest url; EfCreate path; EfRemove path]] ∧
        effects rw.2 = effects w ++ EfAttempt :: trail).
  { intros rw ->. destruct (newRequestErr x); cbn; [exact Hskip|].
    assert (Hreq : ∃ trail,
              trail ∈ [[]; [EfRequest url]; [EfRequest url; EfCreate path];
                       [EfRequest url; EfCreate path; EfRemove path]] ∧
              (effects w ++ [EfAttempt]) ++ [EfRequest url]
              = effects w ++ EfAttempt :: trail).
    { exists [EfRequest url]. split; [|by rewrite <- app_assoc].
      apply list_elem_of_further, list_elem_of_here. }
    destruct (response x) as [e|[status body]]; cbn; [exact Hreq|].
    case_bool_decide; cbn; [exact Hreq|].
    destruct (createErr x); cbn; [exact Hreq|].
    match goal with
    | |- context [copyWithContext env path body 0%Z ?w0] =>
        pose proof (copyWithContext_world env path body 0 w0) as (_ & _ & He);
        destruct (copyWithContext env path body 0 w0) as [[size err] w2]
    end.
    cbn in He. destruct err; cbn; rewrite He.
    - exists [EfRequest url; EfCreate path; EfRemove path].
      split; [|by rewrite <- !app_assoc]. do 3 apply list_elem_of_further.
      apply list_elem_of_here.
    - exists [EfRequest url; EfCreate path].
      split; [|by rewrite <- !app_assoc]. do 2 apply list_elem_of_further.
      apply list_elem_of_here. }
  destruct (files w !! path) as [size|]; [|by apply Htransfer].
  case_bool_decide; [exact Hskip | by apply Htransfer].
Qed.

(** An attempt that returns no error leaves the file behind: the one it
    found (a skip) or the one it wrote, as long as the size it reports. *)
Lemma downloadFileWithContext_ok env d item w :
  let out := downloadFileWithContext env d item w in
  Error out.1 = None →
  ∃ fsize, files out.2 !! filepath_Join (outputDir d) (Filename item) = Some fsize ∧
           Size out.1 = (if Skipped out.1 then fsize else wrap64 fsize) ∧
           (0 ≤ fsize)%Z.
Proof.
  cbn zeta. unfold downloadFileWithContext.
  set (path := filepath_Join (outputDir d) (Filename item)).
  set (x := exchange env (attempts w) (buildURL d (URL item))).
  cbn [files logEffect setFiles polls attempts effects].
  assert (Htransfer : ∀ rw, rw =
      match newRequestErr x with
      | Some e => (mkResult item 0 (Some (ErrWrap "failed to create request: " e)) false,
                   mkWorld (files w) (polls w) (S (attempts w)) (effects w ++ [EfAttempt]))
      | None =>
          match response x with
          | inl e => (mkResult item 0 (Some (ErrWrap "HTTP request failed: " e)) false,
                      mkWorld (files w) (polls w) (S (attempts w))
                        ((effects w ++ [EfAttempt]) ++ [EfRequest (buildURL d (URL item))]))
          | inr (status, body) =>
              if bool_decide (status ≠ 200)%Z
              then (mkResult item 0 (Some (ErrText ("HTTP " +:+ pretty status))) false,
                    mkWorld (files w) (polls w) (S (attempts w))
                      ((effects w ++ [EfAttempt]) ++ [EfRequest (buildURL d (URL item))]))
              else
                match createErr x with
                | Some e => (mkResult item 0 (Some (ErrWrap "failed to create file: " e)) false,
                             mkWorld (files w) (polls w) (S (attempts w))
                               ((effects w ++ [EfAttempt])
                                  ++ [EfRequest (buildURL d (URL item))]))
                | None =>
                    let '((size, err), w) :=
                      copyWithContext env path body 0
                        (mkWorld (<[path := 0%Z]> (files w)) (polls w) (S (attempts w))
                           (((effects w ++ [EfAttempt])
                               ++ [EfRequest (buildURL d (URL item))]) ++ [EfCreate path])) in
                    match err with
                    | Some e =>
                        (mkResult item 0 (Some (ErrWrap "failed to copy file: " e)) false,
                         mkWorld (delete path (files w)) (polls w) (attempts w)
                           (effects w ++ [EfRemove path]))
                    | None => (mkResult item size None false, w)
                    end
                end
          end
      end →
      Error rw.1 = None →
      ∃ fsize, files rw.2 !! path = Some fsize ∧
               Size rw.1 = (if Skipped rw.1 then fsize else wrap64 fsize) ∧ (0 ≤ fsize)%Z).
  { intros rw ->. destruct (newRequestErr x); cbn; [done|].
    destruct (response x) as [e|[status body]]; cbn; [done|].
    case_bool_decide; cbn; [done|].
    destruct (createErr x); cbn; [done|].
    match goal with
    | |- context [copyWithContext env path body 0%Z ?w0] =>
        pose proof (copyWithContext_success env path body 0 w0) as Hok;
        pose proof (copyWithContext_range env path body 0 w0 ltac:(lia)) as Hrange;
        destruct (copyWithContext env path body 0 w0) as [[size err] w2]
    end.
    destruct err; cbn; [done|]. intros _.
    destruct (Hok size w2 0%Z eq_refl) as [Hfile Hn]; [cbn; by rewrite lookup_insert_eq|].
    exists (bytesRead body). cbn in Hrange. split_and!.
    - by rewrite Hfile.
    - rewrite <- (wrap64_small size) by done. by rewrite Hn.
    - apply bytesRead_nonneg. }
  destruct (files w !! path) as [size|] eqn:Hfile; [|by apply Htransfer].
  case_bool_decide; [|by apply Htransfer].
  cbn. intros _. exists size. split_and!; [done | done | lia].
Qed.

(** A result without error is the result of an attempt. *)
Lemma retryLoop_ok env d item remaining attempt errors w :
  Error (retryLoop env d remaining attempt errors item w).1 = None →
  ∃ w1, retryLoop env d remaining attempt errors item w
        = downloadFileWithContext env d item w1.
Proof.
  revert attempt errors w. induction remaining as [|remaining IH];
    intros attempt errors w; cbn; [done|].
  destruct (ctxDone env w) as [[c|] w1]; [done|].
  destruct (downloadFileWithContext env d item w1) as [r w2] eqn:Hrun.
  destruct (Error r) as [e|] eqn:He.
  - destruct (Contains (errorText e) "404"); [done|].
    case_bool_decide; [|apply IH].
    destruct (ctxDone env _) as [[c|] w3]; [done | apply IH].
  - intros _. exists w1. by rewrite Hrun.
Qed.

(** X12. When a job ends without error the destination holds a file as
    long as the reported size; unless that file is empty, running the job
    again (context not ended) is a skip with the same size and no request:
    a file downloaded once is not downloaded twice. *)
Theorem finished_job_is_skipped_next_time env env' d item w :
  let out := downloadFileWithRetryAndContext env d item w in
  Error out.1 = None →
  ∃ fsize,
    files out.2 !! filepath_Join (outputDir d) (Filename item) = Some fsize ∧
    Size out.1 = (if Skipped out.1 then fsize else wrap64 fsize) ∧
    ((0 < fsize)%Z → (0 ≤ retries d)%Z → (ctxDone env' out.2).1 = None →
     downloadFileWithRetryAndContext env' d item out.2
     = (mkResult item fsize None true,
        mkWorld (files out.2) (S (polls out.2)) (S (attempts out.2))
          (effects out.2 ++ [EfAttempt]))).
Proof.
  cbn zeta. unfold downloadFileWithRetryAndContext. intros Hok.
  destruct (retryLoop_ok env d item _ _ _ _ Hok) as [w1 Hrun]. rewrite Hrun in Hok |- *.
  destruct (downloadFileWithContext_ok env d item w1 Hok) as (fsize & Hfile & Hsize & _).
  exists fsize. split_and!; [done | done |]. intros Hpos Hretries Hctx.
  destruct (Z.to_nat (retries d + 1)) as [|n] eqn:Hn; [lia|]. cbn [retryLoop].
  pose proof (ctxDone_world env' (downloadFileWithContext env d item w1).2) as Hw.
  destruct (ctxDone env' _) as [[c|] w2]; cbn in Hctx, Hw; [done|]. subst w2.
  by rewrite (downloadFileWithContext_skip env' d item _ fsize).
Qed.

(** *** The retry loop in any environment *)

Lemma requestsOf_app l1 l2 : requestsOf (l1 ++ l2) = requestsOf l1 ++ requestsOf l2.
Proof. apply omap_app. Qed.

Lemma attemptTrail_log url path trail :
  trail ∈ attemptTrail url path →
  waitsOf (EfAttempt :: trail) = [] ∧
  ∃ m, requestsOf (EfAttempt :: trail) = replicate m url ∧ (m ≤ 1)%nat.
Proof.
  unfold attemptTrail. rewrite !elem_of_cons, elem_of_nil.
  intros [->|[->|[->|[->|[]]]]]; (split; [done|]);
    [exists 0 | exists 1 | exists 1 | exists 1]; (split; [done|lia]).
Qed.

Lemma ctxDone_Some env w c :
  (ctxDone env w).1 = Some c → ∃ n, ctxEnds env = Some (n, c) ∧ (n ≤ polls w)%nat.
Proof.
  unfold ctxDone. destruct (ctxEnds env) as [[n c']|]; [|done].
  case_bool_decide; [|done]. intros [= ->]. by exists n.
Qed.

(** What the loop does with [remaining] iterations left: [k] attempts,
    [m] requests, and waits of [attempt + 1] ... [attempt + j] seconds. *)
Lemma retryLoop_budget env d item remaining attempt errors w :
  let out := retryLoop env d remaining attempt errors item w in
  ∃ (k j m : nat) (new : list Effect),
    effects out.2 = effects w ++ new ∧
    attempts out.2 = attempts w + k ∧ (k ≤ remaining)%nat ∧
    requestsOf new = replicate m (buildURL d (URL item)) ∧ (m ≤ k)%nat ∧
    waitsOf new = (λ i : nat, (attempt + Z.of_nat i)%Z) <$> seq 1 j ∧ (j ≤ k)%nat ∧
    (j = 0 ∨ (attempt + Z.of_nat j ≤ retries d)%Z).
Proof.
  cbn zeta. revert attempt errors w.
  induction remaining as [|remaining IH]; intros attempt errors w; cbn [retryLoop].
  { exists 0, 0, 0, []. cbn. rewrite app_nil_r. split_and!; first [done | lia | by left]. }
  pose proof (ctxDone_world env w) as Hw1.
  destruct (ctxDone env w) as [[c|] w1]; cbn in Hw1; subst w1.
  { exists 0, 0, 0, []. cbn. rewrite app_nil_r. split_and!; first [done | lia | by left]. }
  match goal with
  | |- context [downloadFileWithContext env d item ?w0] =>
      pose proof (downloadFileWithContext_facts env d item w0) as (_ & Ha & _ & _);
      destruct (downloadFileWithContext_effects env d item w0) as (trail & Htrail & He);
      destruct (downloadFileWithContext env d item w0) as [r w2]
  end.
  cbn in Ha, He.
  destruct (attemptTrail_log _ _ _ Htrail) as (Hwaits & m & Hreq & Hm).
  assert (Hone : ∃ (k j m : nat) (new : list Effect),
            effects w2 = effects w ++ new ∧
            attempts w2 = attempts w + k ∧ (k ≤ S remaining)%nat ∧
            requestsOf new = replicate m (buildURL d (URL item)) ∧ (m ≤ k)%nat ∧
            waitsOf new = (λ i : nat, (attempt + Z.of_nat i)%Z) <$> seq 1 j ∧ (j ≤ k)%nat ∧
            (j = 0 ∨ (attempt + Z.of_nat j ≤ retries d)%Z)).
  { exists 1, 0, m, (EfAttempt :: trail). split_and!; first [done | lia | by left]. }
  destruct (Error r) as [e|]; [|exact Hone].
  destruct (Contains (errorText e) "404"); [exact Hone|]. clear Hone.
  case_bool_decide as Hretry.
  - match goal with
    | |- context [ctxDone env ?w0] =>
        pose proof (ctxDone_world env w0) as Hw3;
        destruct (ctxDone env w0) as [[c|] w3]
    end; cbn in Hw3; subst w3.
    + exists 1, 1, m, ((EfAttempt :: trail) ++ [EfWait (attempt + 1)]). cbn [snd effects attempts].
      rewrite He, <- app_assoc, requestsOf_app, waitsOf_app, Hreq, Hwaits.
      cbn. rewrite app_nil_r.
      split_and!; first [done | lia | (right; lia)].
    + match goal with
      | |- context [retryLoop env d remaining ?a ?errs item ?w0] =>
          destruct (IH a errs w0)
            as (k & j & m' & new & He' & Ha' & Hk & Hreq' & Hm' & Hwaits' & Hj & Hlast);
          destruct (retryLoop env d remaining a errs item w0) as [r' w4]
      end.
      cbn in He', Ha' |- *.
      exists (S k), (S j), (m + m'), ((EfAttempt :: trail) ++ EfWait (attempt + 1) :: new).
      rewrite He', He, Ha', Ha, <- !app_assoc, requestsOf_app, waitsOf_app, Hreq, Hwaits.
      change (requestsOf (EfWait (attempt + 1) :: new)) with (requestsOf new).
      change (waitsOf (EfWait (attempt + 1) :: new)) with ((attempt + 1)%Z :: waitsOf new).
      rewrite Hreq', Hwaits', replicate_add, waits_shift.
      split_and!; first [done | lia | (right; destruct Hlast as [-> | Hlast]; lia)].
  - match goal with
    | |- context [retryLoop env d remaining ?a ?errs item ?w0] =>
        destruct (IH a errs w0)
          as (k & j & m' & new & He' & Ha' & Hk & Hreq' & Hm' & Hwaits' & Hj & Hlast);
        destruct (retryLoop env d remaining a errs item w0) as [r' w4]
    end.
    cbn in He', Ha' |- *.
    assert (j = 0) as -> by (destruct Hlast as [-> | Hlast]; lia).
    exists (S k), 0, (m + m'), ((EfAttempt :: trail) ++ new).
    rewrite He', He, Ha', <- !app_assoc, requestsOf_app, waitsOf_app, Hreq, Hwaits.
    rewrite Hreq', Hwaits', replicate_add.
    split_and!; first [done | lia | by left].
Qed.


(** The error of a failed job: the context's, or the [MultiError] grown
    by one entry per attempt. *)
Lemma retryLoop_errors env d item remaining attempt errors w e :
  let out := retryLoop env d remaining attempt errors item w in
  Error out.1 = Some e →
  (∃ n c, ctxEnds env = Some (n, c) ∧ e = causeErr c) ∨
  (∃ inners, e = ErrMulti (errors ++ attemptErrors (attempt + 1) inners) ∧
             attempts out.2 = attempts w + length inners).
Proof.
  cbn zeta. revert attempt errors w.
  induction remaining as [|remaining IH]; intros attempt errors w; cbn [retryLoop].
  { cbn. intros [= <-]. right. exists []. cbn. by rewrite app_nil_r. }
  pose proof (ctxDone_world env w) as Hw1.
  destruct (ctxDone env w) as [[c|] w1] eqn:Hdone; cbn in Hw1; subst w1.
  { cbn. intros [= <-]. left.
    destruct (ctxDone_Some env w c) as (n & Hn & _); [by rewrite Hdone|]. by exists n, c. }
  match goal with
  | |- context [downloadFileWithContext env d item ?w0] =>
      pose proof (downloadFileWithContext_facts env d item w0) as (_ & Ha & _ & _);
      destruct (downloadFileWithContext env d item w0) as [r w2]
  end.
  cbn in Ha.
  destruct (Error r) as [e0|] eqn:He0; [|cbn; by rewrite He0].
  cbn [AddError].
  destruct (Contains (errorText e0) "404").
  { cbn. intros [= <-]. right. exists [e0]. cbn. split; [done|lia]. }
  assert (Hrest : ∀ w3, attempts w3 = attempts w2 →
            Error (retryLoop env d remaining (attempt + 1)
                     (errors ++ [ErrWrap ("attempt " +:+ pretty (attempt + 1)%Z +:+ ": ") e0])
                     item w3).1 = Some e →
            (∃ n c, ctxEnds env = Some (n, c) ∧ e = causeErr c) ∨
            (∃ inners, e = ErrMulti (errors ++ attemptErrors (attempt + 1) inners) ∧
                       attempts (retryLoop env d remaining (attempt + 1)
                     (errors ++ [ErrWrap ("attempt " +:+ pretty (attempt + 1)%Z +:+ ": ") e0])
                     item w3).2 = attempts w + length inners)).
  { intros w3 Hw3 He. destruct (IH _ _ _ He) as [Hctx | (inners & -> & Hcount)]; [by left|].
    right. exists (e0 :: inners). cbn. rewrite <- app_assoc. split; [done|].
    rewrite Hcount, Hw3, Ha. lia. }
  case_bool_decide; [|by apply Hrest].
  match goal with
  | |- context [ctxDone env ?w0] =>
      pose proof (ctxDone_world env w0) as Hw3;
      destruct (ctxDone env w0) as [[c|] w3] eqn:Hdone3
  end; cbn in Hw3; subst w3.
  - cbn. intros [= <-]. left.
    match type of Hdone3 with
    | ctxDone env ?w0 = _ =>
        destruct (ctxDone_Some env w0 c) as (n & Hn & _); [by rewrite Hdone3|]
    end.
    by exists n, c.
  - by apply Hrest.
Qed.

(** X14. The error of a failed job is the context's error, or a
    [MultiError] with one entry for each attempt made, in order and
    numbered from 1; with no attempt allowed ([retries < 0]) it is the
    empty [MultiError]. *)
Theorem job_error_lists_every_attempt env d item w e :
  let out := downloadFileWithRetryAndContext env d item w in
  Error out.1 = Some e →
  (∃ n c, ctxEnds env = Some (n, c) ∧ e = causeErr c) ∨
  (∃ inners, e = ErrMulti (attemptErrors 1 inners) ∧
             attempts out.2 = attempts w + length inners ∧
             (length inners ≤ Z.to_nat (retries d + 1))%nat).
Proof.
  cbn zeta. unfold downloadFileWithRetryAndContext. intros He.
  destruct (retryLoop_errors env d item _ _ _ _ _ He) as [Hctx | (inners & -> & Hcount)];
    [by left|].
  right. exists inners. split_and!; [done | done |].
  destruct (retryLoop_budget env d item (Z.to_nat (retries d + 1)) 0 [] w)
    as (k & _ & _ & _ & _ & Ha & Hk & _).
  lia.
Qed.

(** X15. Once the context has ended, a job makes no attempt: no request,
    no wait, no file touched, and the result is the context's error. *)
Theorem ended_context_stops_job env d item w n c :
  ctxEnds env = Some (n, c) → (n ≤ polls w)%nat → (0 ≤ retries d)%Z →
  let out := downloadFileWithRetryAndContext env d item w in
  out.1 = mkResult item 0 (Some (causeErr c)) false ∧
  files out.2 = files w ∧ attempts out.2 = attempts w ∧ effects out.2 = effects w.
Proof.
  intros Hends Hpolls Hretries. cbn zeta.
  rewrite (job_after_context_ended env d item w c Hretries); [done|].
  unfold ctxDone. rewrite Hends. by rewrite bool_decide_eq_true_2.
Qed.

(** *** The worker pool *)

(** X16. The progress callback is called once for each Result collected,
    with 1, 2, 3, ... in turn, and never with more than the number of
    jobs. *)
Theorem progress_counts_results d items schedule s :
  run schedule (start d items) = Some s →
  notified s = seq 1 (length (allResults s)) ∧
  completed s = length (allResults s) ∧
  Forall (λ n, (1 ≤ n ≤ length items)%nat) (notified s).
Proof.
  intros Hrun.
  destruct (run_inv items schedule _ s (start_inv d items) Hrun)
    as (Hsub & _ & _ & Hdone & Hnote).
  rewrite Hnote, Hdone. split_and!; try done.
  assert (Hlen : (length (allResults s) ≤ length items)%nat).
  { apply submseteq_length in Hsub. unfold inFlight in Hsub.
    rewrite !length_app, length_fmap in Hsub. lia. }
  apply Forall_forall. intros n Hn. apply list_elem_of_In, elem_of_seq in Hn. lia.
Qed.


(** The failures counted by the collecting loop are the Results with an
    error. *)
Lemma drain_failed st rs :
  Failed (drain st rs) = Failed st + length (App.downloadErrors rs).
Proof.
  revert st. induction rs as [|r rs IH]; intros st; [cbn; lia|].
  change (drain st (r :: rs)) with (drain (collect st r) rs). rewrite IH.
  unfold App.downloadErrors, collect. cbn [omap list_omap].
  destruct (Error r) as [e|]; [cbn; lia|]. by destruct (Skipped r).
Qed.

(** X18. The error texts the application reports are as many as
    [Stats.Failed], one for each Result with an error, in the order of
    the Results. *)
Theorem reported_errors_match_failed_count d items st rs :
  DownloadAllWithContext d items (st, rs) →
  length (App.downloadErrors rs) = Failed st ∧
  App.downloadErrors rs
  = errorText <$> omap Error rs.
Proof.
  intros (schedule & s & elapsed & Hrun & _ & [= -> ->]).
  destruct (run_inv items schedule _ s (start_inv d items) Hrun)
    as (_ & _ & Hstats & _).
  split.
  - cbn. rewrite Hstats, drain_failed. done.
  - unfold App.downloadErrors. clear. induction (allResults s) as [|r rs IH]; [done|].
    cbn [omap list_omap]. rewrite IH. by destruct (Error r).
Qed.

(** *** URLs *)

Lemma prefix_app_l (p s r : string) :
  String.prefix p s = true → String.prefix p (s +:+ r) = true.
Proof.
  intros Hp. apply prefix_inv in Hp as [t ->]. rewrite append_assoc.
  apply prefix_append.
Qed.

(** X19. With an absolute base URL, what [buildURL] returns is absolute,
    and [buildURL] leaves it as it is: building twice is building once. *)
Theorem buildURL_idempotent d url :
  HasPrefix (telegraphFileBase d) "http://" || HasPrefix (telegraphFileBase d) "https://"
  = true →
  HasPrefix (buildURL d url) "http://" || HasPrefix (buildURL d url) "https://" = true ∧
  buildURL d (buildURL d url) = buildURL d url.
Proof.
  intros Hbase.
  assert (Habs : HasPrefix (buildURL d url) "http://"
                 || HasPrefix (buildURL d url) "https://" = true).
  { unfold buildURL.
    destruct (HasPrefix url "http://" || HasPrefix url "https://") eqn:Hurl; [done|].
    unfold HasPrefix in *. apply orb_true_iff in Hbase as [Hp | Hp];
      apply orb_true_iff; [left | right]; by apply prefix_app_l. }
  split; [done|]. unfold buildURL at 1. by rewrite Habs.
Qed.

End MoreDownloaderProperties.

(** ** internal/telegraph: the page path *)

Section ClientProperties.
Import GoStrings.

(** X20. [ExtractPagePath] accepts exactly the URLs that start with
    https://telegra.ph/ and returns what follows the prefix, the empty
    path included; every other URL is an error. *)
Theorem ExtractPagePath_strips_prefix url path :
  (Client.ExtractPagePath url = inr path ↔ url = "https://telegra.ph/" +:+ path) ∧
  (HasPrefix url "https://telegra.ph/" = false ↔
   Client.ExtractPagePath url
   = inl (ErrText "invalid Telegraph URL: must start with https://telegra.ph/")).
Proof.
  assert (Hgood : ∀ rest, Client.ExtractPagePath ("https://telegra.ph/" +:+ rest) = inr rest).
  { intros rest. unfold Client.ExtractPagePath, TrimPrefix, HasPrefix.
    rewrite prefix_append, sliceFrom_append.
    destruct (String.eqb_spec rest ("https://telegra.ph/" +:+ rest)) as [Heq|]; [|done].
    apply (f_equal String.length) in Heq. rewrite length_append in Heq. cbn in Heq. lia. }
  assert (Hbad : HasPrefix url "https://telegra.ph/" = false →
            Client.ExtractPagePath url
            = inl (ErrText "invalid Telegraph URL: must start with https://telegra.ph/")).
  { intros Hp. unfold Client.ExtractPagePath, TrimPrefix. rewrite Hp.
    by rewrite String.eqb_refl. }
  destruct (HasPrefix url "https://telegra.ph/") eqn:Hp.
  - unfold HasPrefix in Hp. apply prefix_inv in Hp as [rest ->]. rewrite Hgood. split.
    + split; [by intros [= ->]|]. intros Heq. f_equal.
      by apply (inj (String.app "https://telegra.ph/")) in Heq.
    + split; [done | discriminate].
  - rewrite (Hbad eq_refl). split; [|done]. split; [discriminate|].
    intros ->. unfold HasPrefix in Hp. by rewrite prefix_append in Hp.
Qed.

End ClientProperties.

(** ** Runs on concrete inputs *)

Section MoreRuns.
Import GoStrings Parser Downloader Examples.
#[local] Existing Instance plainStdlib.

(** The eighth item of a page, an image: index 7 is read back. *)
Lemma extractIndexFromFilename_generateFilename_witness :
  extractIndexFromFilename "7_a.jpg" = 7%Z.
Proof.
  apply (extractIndexFromFilename_generateFilename New "/file/a.jpg" 7 "7_a.jpg").
  - vm_compute. reflexivity.
  - lia.
Defined.


(** Two images side by side, the first one refused. *)
Lemma flat_walk_stops_at_refusal_witness :
  match iterateMediaItems New refuseAll [img "/file/a.jpg"; img "/file/b.jpg"] tt with
  | Some w => afterRefusal (trace w) = []
  | None => "" ∈ fileExtensions New
  end.
Proof.
  apply (flat_walk_stops_at_refusal New refuseAll [img "/file/a.jpg"; img "/file/b.jpg"] tt).
  repeat constructor.
Defined.

(** Eight bytes in two reads. *)
Lemma copyWithContext_reports_bytes_witness :
  ∃ w', copyWithContext servingEnv "out/0_a.jpg" goodBody 0 worldWithEmptyA
        = ((8%Z, None), w') ∧
        files w' !! "out/0_a.jpg" = Some 8%Z.
Proof.
  eexists. split; [vm_compute; reflexivity|].
  eapply (copyWithContext_reports_bytes servingEnv "out/0_a.jpg" goodBody 0
            worldWithEmptyA 8 _ 0).
  - vm_compute. reflexivity.
  - reflexivity.
  - lia.
  - vm_compute. reflexivity.
Defined.

(** A job that downloads eight bytes; the second run is the skip. *)
Lemma finished_job_is_skipped_next_time_witness :
  let out := downloadFileWithRetryAndContext servingEnv downloader3 itemA emptyWorld in
  Size out.1 = 8%Z ∧
  (downloadFileWithRetryAndContext servingEnv downloader3 itemA out.2).1
  = mkResult itemA 8 None true.
Proof.
  cbn zeta.
  destruct (finished_job_is_skipped_next_time servingEnv servingEnv downloader3 itemA
              emptyWorld) as (fsize & Hfile & Hsize & Hrerun).
  - vm_compute. reflexivity.
  - vm_compute in Hfile. injection Hfile as <-.
    split; [vm_compute; reflexivity|].
    rewrite Hrerun; [reflexivity | lia | cbn; lia | vm_compute; reflexivity].
Defined.

(** Three attempts, each answered with 500. *)
Lemma job_error_lists_every_attempt_witness :
  let out := downloadFileWithRetryAndContext (statusEnv 500 None) downloader2 itemA
               emptyWorld in
  (∃ n c, ctxEnds (statusEnv 500 None) = Some (n, c) ∧ threeTimes500 = causeErr c) ∨
  (∃ inners, threeTimes500 = ErrMulti (attemptErrors 1 inners) ∧
             attempts out.2 = attempts emptyWorld + length inners ∧
             (length inners ≤ Z.to_nat (retries downloader2 + 1))%nat).
Proof.
  apply (job_error_lists_every_attempt (statusEnv 500 None) downloader2 itemA emptyWorld
           threeTimes500).
  vm_compute. reflexivity.
Defined.

(** The context was cancelled before the job started. *)
Lemma ended_context_stops_job_witness :
  let out := downloadFileWithRetryAndContext (statusEnv 200 (Some (0, Canceled)))
               downloader3 itemA worldWithA in
  out.1 = mkResult itemA 0 (Some ErrCanceled) false ∧
  files out.2 = files worldWithA ∧ attempts out.2 = attempts worldWithA ∧
  effects out.2 = effects worldWithA.
Proof.
  apply (ended_context_stops_job (statusEnv 200 (Some (0, Canceled))) downloader3 itemA
           worldWithA 0 Canceled).
  - reflexivity.
  - cbn. lia.
  - cbn. lia.
Defined.

(** Two jobs, one worker: the callback is called with 1, then 2. *)
Lemma progress_counts_results_witness :
  ∃ s, run orderlyRun (start downloader1 [itemA; itemB]) = Some s ∧
       notified s = seq 1 (length (allResults s)) ∧
       completed s = length (allResults s) ∧
       Forall (λ n, (1 ≤ n ≤ 2)%nat) (notified s).
Proof.
  eexists. split; [vm_compute; reflexivity|].
  apply (progress_counts_results downloader1 [itemA; itemB] orderlyRun).
  vm_compute. reflexivity.
Defined.


(** One of the two jobs failed: one error text. *)
Lemma reported_errors_match_failed_count_witness :
  length (App.downloadErrors orderlyResults) = Failed orderlyStats ∧
  App.downloadErrors orderlyResults = errorText <$> omap Error orderlyResults.
Proof.
  apply (reported_errors_match_failed_count downloader1 [itemA; itemB]).
  exists orderlyRun. eexists. exists 0%Z.
  split; [vm_compute; reflexivity|]. split; reflexivity.
Defined.

(** The base URL of the Telegraph files is absolute. *)
Lemma buildURL_idempotent_witness :
  HasPrefix (buildURL downloader3 "/file/a.jpg") "http://"
  || HasPrefix (buildURL downloader3 "/file/a.jpg") "https://" = true ∧
  buildURL downloader3 (buildURL downloader3 "/file/a.jpg")
  = buildURL downloader3 "/file/a.jpg".
Proof.
  apply (buildURL_idempotent downloader3 "/file/a.jpg"). reflexivity.
Defined.

End MoreRuns.
